(** * telnet-client: a shallow embedding of [telnet.go] and its properties

    The development follows the source file top-down:

    - bytes, strings and the Go multiple-result convention;
    - the parts of the Go standard library the client calls
      ([bufio.Reader], [regexp.Regexp], [bytes.Trim], [strings.Join]);
    - the client itself ([skipSBSequence], [skipCommand], [ReadByte],
      [ReadUntil], [findNewLinePos], [ReadUntilPrompt], [ReadUntilBanner],
      [findInputPrompt], [waitWelcomeSigns], [Write], [Execute]);
    - the properties of the protocol decoder, the prompt scanner, the login
      predicate and command execution. *)

From Stdlib Require Import String Ascii.
From Stdlib Require Import ZArith List Bool Lia Arith.
Import ListNotations.
Open Scope Z_scope.

(* ================================================================= *)
(** ** Bytes and strings *)

(** A Go [byte] is kept as its numeric value.  The client never does
    arithmetic on bytes, it only compares them, so no wrap-around is
    involved. *)
Definition byte := Z.

(** Go [int]: indices and counts.  Every value of this kind in the client is
    bounded by the length of a slice, so it never leaves the 64-bit range. *)
Definition int := Z.

Definition len {A : Type} (l : list A) : int := Z.of_nat (length l).

(** The bytes of a string literal. *)
Fixpoint bytes_of (s : string) : list byte :=
  match s with
  | EmptyString => []
  | String c s' => Z.of_N (N_of_ascii c) :: bytes_of s'
  end.
Arguments bytes_of s%_string.

Definition LF : byte := 10.   (* '\n' *)
Definition CR : byte := 13.   (* '\r' *)
Definition SP : byte := 32.   (* ' '  *)

Definition CRLF : list byte := [CR; LF].

(* ================================================================= *)
(** ** Results of a run

    A Go function of the client returns its results as a tuple, the error
    last ([None] is [nil]).  Around that tuple, [outcome] says how the run
    ended: it returned, it panicked (an index or slice expression out of
    range), or the model's loop budget was used up before the loop ended. *)

Inductive error : Type :=
| EOF
| DeadlineExceeded.

Inductive outcome (A : Type) : Type :=
| Ret (a : A)
| Panic
| NoFuel.
Arguments Ret {A} a.
Arguments Panic {A}.
Arguments NoFuel {A}.

Definition bind {A B : Type} (m : outcome A) (k : A -> outcome B) : outcome B :=
  match m with
  | Ret a => k a
  | Panic => Panic
  | NoFuel => NoFuel
  end.

Notation "'do' x <- m ; k" := (bind m (fun x => k))
  (at level 10, x pattern, m at level 100, k at level 200).

(* ================================================================= *)
(** ** [bufio.Reader] over the connection

    The connection hands its bytes over in chunks: one chunk is what one
    [Read] on the socket returns, so it is never empty.  When the chunks are
    used up, every further [Read] fails with [rerr] (the peer closed the
    connection, or the read deadline, which is set once in [Dial], has
    passed). *)

Definition chunk : Type := (byte * list byte)%type.

Definition chunk_bytes (c : chunk) : list byte := fst c :: snd c.

Record Reader : Type := mkReader {
  buffered : list byte;   (* read from the socket, not yet consumed *)
  conn : list chunk;      (* what the socket will still deliver *)
  rerr : error            (* the error after the last chunk *)
}.

(** [Reader.Buffered] *)
Definition bufio_Buffered (r : Reader) : nat := length (buffered r).

(** [Reader.ReadByte]: fills the empty buffer with one [Read]. *)
Definition bufio_ReadByte (r : Reader) : byte * option error * Reader :=
  match buffered r with
  | c :: rest => (c, None, mkReader rest (conn r) (rerr r))
  | [] =>
      match conn r with
      | [] => (0, Some (rerr r), r)
      | (c, rest) :: cs => (c, None, mkReader rest cs (rerr r))
      end
  end.

(** [Reader.Peek]: fills until [n] bytes are buffered or the connection
    fails; consumes nothing.  On failure the bytes that are there are
    returned with the error. *)
Fixpoint peek_fill (n : nat) (buf : list byte) (cs : list chunk)
  : list byte * list chunk :=
  if (n <=? length buf)%nat then (buf, cs)
  else match cs with
       | [] => (buf, cs)
       | c :: cs' => peek_fill n (buf ++ chunk_bytes c) cs'
       end.

Definition bufio_Peek (n : nat) (r : Reader)
  : list byte * option error * Reader :=
  let '(buf, cs) := peek_fill n (buffered r) (conn r) in
  let r' := mkReader buf cs (rerr r) in
  if (n <=? length buf)%nat then (firstn n buf, None, r')
  else (buf, Some (rerr r), r').

(** [Reader.Discard]: skips [n] bytes, filling as needed; returns the
    number of bytes skipped.  [discard_conn] is its loop once the buffer is
    empty and [remain > 0] bytes are still to skip. *)
Fixpoint discard_conn (remain : nat) (cs : list chunk)
  : nat * bool * (list byte * list chunk) :=
  match cs with
  | [] => (remain, false, ([], []))
  | c :: cs' =>
      let buf := chunk_bytes c in
      if (remain <=? length buf)%nat then (0%nat, true, (skipn remain buf, cs'))
      else discard_conn (remain - length buf) cs'
  end.

Definition bufio_Discard (n : nat) (r : Reader)
  : nat * option error * Reader :=
  if (n =? 0)%nat then (0%nat, None, r)
  else if (n <=? length (buffered r))%nat
  then (n, None, mkReader (skipn n (buffered r)) (conn r) (rerr r))
  else
    let '(remain, ok, (buf, cs)) :=
      discard_conn (n - length (buffered r)) (conn r) in
    ((n - remain)%nat,
     (if ok then None else Some (rerr r)),
     mkReader buf cs (rerr r)).

(** Everything the reader will still hand out, buffer first. *)
Definition unread (r : Reader) : list byte :=
  buffered r ++ flat_map chunk_bytes (conn r).

(* ================================================================= *)
(** ** [regexp.Regexp]

    A compiled pattern is used through [Find] and [ReplaceAll] only.  [Find]
    yields the leftmost match, or nothing. *)

Record Regexp : Type := mkRegexp {
  Find : list byte -> list byte;
  ReplaceAll : list byte -> list byte -> list byte
}.

(** The syntax the default patterns are written in, with Go's
    leftmost-first matching: an alternation prefers its left branch and a
    repetition is greedy. *)
Inductive regex : Type :=
| Class (p : byte -> bool)
| Seq (r1 r2 : regex)
| Alt (r1 r2 : regex)
| Plus (r : regex).

(** [plus_iter step n s]: the ways [r+] matches a prefix of [s], as the
    suffixes left over, most preferred first; [step] is the same for [r] and
    [n] bounds the number of further rounds, each of which has to consume
    input. *)
Fixpoint plus_iter (step : list byte -> list (list byte)) (n : nat)
  (s : list byte) : list (list byte) :=
  match n with
  | O => []
  | S n' =>
      flat_map
        (fun s' =>
           (if (length s' <? length s)%nat then plus_iter step n' s' else [])
             ++ [s'])
        (step s)
  end.

Fixpoint leftovers (r : regex) (s : list byte) : list (list byte) :=
  match r with
  | Class p =>
      match s with
      | c :: t => if p c then [t] else []
      | [] => []
      end
  | Seq r1 r2 => flat_map (leftovers r2) (leftovers r1 s)
  | Alt r1 r2 => leftovers r1 s ++ leftovers r2 s
  | Plus r1 => plus_iter (leftovers r1) (S (length s)) s
  end.

(** Length of the preferred match of [r] at the start of [s]. *)
Definition match_here (r : regex) (s : list byte) : option nat :=
  match leftovers r s with
  | s' :: _ => Some (length s - length s')%nat
  | [] => None
  end.

(** Leftmost match in [s]: the bytes before it and its length. *)
Fixpoint find_from (r : regex) (s : list byte) : option (list byte * nat) :=
  match match_here r s with
  | Some n => Some ([], n)
  | None =>
      match s with
      | [] => None
      | c :: t =>
          match find_from r t with
          | Some (pre, n) => Some (c :: pre, n)
          | None => None
          end
      end
  end.

Definition regex_Find (r : regex) (s : list byte) : list byte :=
  match find_from r s with
  | Some (pre, n) => firstn n (skipn (length pre) s)
  | None => []
  end.

(** [ReplaceAll]: the matches are taken left to right without overlap; after
    an empty match one byte is copied.  [n] bounds the number of matches. *)
Fixpoint replace_loop (r : regex) (repl : list byte) (n : nat) (s : list byte)
  : list byte :=
  match n with
  | O => s
  | S n' =>
      match find_from r s with
      | None => s
      | Some (pre, m) =>
          let rest := skipn (length pre + m) s in
          match m with
          | O =>
              match skipn (length pre) s with
              | [] => pre ++ repl
              | c :: t => pre ++ repl ++ c :: replace_loop r repl n' t
              end
          | S _ => pre ++ repl ++ replace_loop r repl n' rest
          end
      end
  end.

Definition regex_ReplaceAll (r : regex) (src repl : list byte) : list byte :=
  replace_loop r repl (S (length src)) src.

(** [regexp.MustCompile] *)
Definition compile (r : regex) : Regexp :=
  mkRegexp (regex_Find r) (regex_ReplaceAll r).

Definition in_range (lo hi : byte) (c : byte) : bool :=
  (lo <=? c) && (c <=? hi).

Definition lit (c : byte) : regex := Class (Z.eqb c).

Fixpoint lits (l : list byte) (last : byte) : regex :=
  match l with
  | [] => lit last
  | c :: l' => Seq (lit c) (lits l' last)
  end.

(** [\w] and [\d] *)
Definition perl_w (c : byte) : bool :=
  in_range 48 57 c || in_range 65 90 c || in_range 97 122 c || (c =? 95).
Definition perl_d (c : byte) : bool := in_range 48 57 c.

(** [[\w\d-_]]: after a class escape the [-] is a literal. *)
Definition name_class (c : byte) : bool :=
  perl_w c || perl_d c || (c =? 45) || (c =? 95).

(** [[\w\d/-_~]]: here [/-_] is the range from ['/'] to ['_']. *)
Definition path_class (c : byte) : bool :=
  perl_w c || perl_d c || in_range 47 95 c || (c =? 126).

(** ["[\\w\\d-_]+ login:"] *)
Definition defaultLoginRe : Regexp :=
  compile (Seq (Plus (Class name_class)) (lits (bytes_of " login") 58)).

(** ["Password:"] *)
Definition defaultPasswordRe : Regexp :=
  compile (lits (bytes_of "Password") 58).

(** ["[\\w\\d-_]+@[\\w\\d-_]+:[\\w\\d/-_~]+(\\$|#)"] *)
Definition defaultBannerRe : Regexp :=
  compile
    (Seq (Plus (Class name_class))
    (Seq (lit 64)
    (Seq (Plus (Class name_class))
    (Seq (lit 58)
    (Seq (Plus (Class path_class))
         (Alt (lit 36) (lit 35))))))).

(* ================================================================= *)
(** ** [bytes.Trim] and [strings.Join] *)

Fixpoint TrimLeft (s : list byte) (cutset : list byte) : list byte :=
  match s with
  | c :: t => if existsb (Z.eqb c) cutset then TrimLeft t cutset else s
  | [] => []
  end.

Definition TrimRight (s : list byte) (cutset : list byte) : list byte :=
  rev (TrimLeft (rev s) cutset).

Definition Trim (s : list byte) (cutset : list byte) : list byte :=
  TrimRight (TrimLeft s cutset) cutset.

Fixpoint Join (elems : list (list byte)) (sep : list byte) : list byte :=
  match elems with
  | [] => []
  | [e] => e
  | e :: rest => e ++ sep ++ Join rest sep
  end.

(* ================================================================= *)
(** ** The client *)

Definition IAC : byte := 255.
Definition SB : byte := 250.
Definition SE : byte := 240.
Definition WILL : byte := 251.
Definition WONT : byte := 252.
Definition DO : byte := 253.
Definition DONT : byte := 254.

Definition defaultDelimiter : byte := SP.

(** The fields of [TelnetClient] that the operations below use.  [reader]
    is the read side of the connection; [sent] is its write side: the bytes
    the peer has been sent so far, oldest first.  Address, port, timeouts and
    the logging fields play no part after [Dial] has connected. *)
Record TelnetClient : Type := mkClient {
  Login : list byte;
  Password : list byte;
  reader : Reader;
  sent : list byte;
  Delimiter : byte;
  LoginRe : Regexp;
  PasswordRe : Regexp;
  BannerRe : Regexp
}.

Definition set_reader (tc : TelnetClient) (r : Reader) : TelnetClient :=
  mkClient (Login tc) (Password tc) r (sent tc) (Delimiter tc)
           (LoginRe tc) (PasswordRe tc) (BannerRe tc).

Definition set_sent (tc : TelnetClient) (s : list byte) : TelnetClient :=
  mkClient (Login tc) (Password tc) (reader tc) s (Delimiter tc)
           (LoginRe tc) (PasswordRe tc) (BannerRe tc).

(** The four decoding methods touch no field of the client but [reader],
    so they are written over the reader. *)

(** [skipSBSequence] *)
Fixpoint skipSBSequence (fuel : nat) (r : Reader)
  : outcome (option error * Reader) :=
  match fuel with
  | O => NoFuel
  | S fuel' =>
      let '(_, err, r1) := bufio_Discard 1 r in
      match err with
      | Some e => Ret (Some e, r1)
      | None =>
          let '(peeked, err, r2) := bufio_Peek 2 r1 in
          match err with
          | Some e => Ret (Some e, r2)
          | None =>
              if (nth 0 peeked 0 =? IAC) && (nth 1 peeked 0 =? SE)
              then let '(_, err, r3) := bufio_Discard 2 r2 in Ret (err, r3)
              else skipSBSequence fuel' r2
          end
      end
  end.

(** [skipCommand] *)
Definition skipCommand (fuel : nat) (r : Reader)
  : outcome (option error * Reader) :=
  let '(peeked, err, r1) := bufio_Peek 1 r in
  match err with
  | Some e => Ret (Some e, r1)
  | None =>
      let c := nth 0 peeked 0 in
      if (c =? WILL) || (c =? WONT) || (c =? DO) || (c =? DONT)
      then let '(_, err, r2) := bufio_Discard 2 r1 in Ret (err, r2)
      else if c =? SB then skipSBSequence fuel r1
      else Ret (None, r1)
  end.

(** [ReadByte] *)
Fixpoint ReadByte (fuel : nat) (r : Reader)
  : outcome (byte * option error * Reader) :=
  match fuel with
  | O => NoFuel
  | S fuel' =>
      let '(b, err, r1) := bufio_ReadByte r in
      match err with
      | Some e => Ret (b, Some e, r1)
      | None =>
          if negb (b =? IAC) then Ret (b, None, r1)
          else
            do (err, r2) <- skipCommand fuel' r1;
            match err with
            | Some e => Ret (b, Some e, r2)
            | None => ReadByte fuel' r2
            end
      end
  end.

(** [ReadUntil]: [b] and [n] are the loop's variables, [data] is the slice
    behind the pointer.  The result is [(n, err)], the slice and the
    reader. *)
Fixpoint ReadUntil_loop (fuel : nat) (data : list byte) (delim : byte)
  (b : byte) (n : int) (r : Reader)
  : outcome (int * option error * list byte * Reader) :=
  match fuel with
  | O => NoFuel
  | S fuel' =>
      if b =? delim then Ret (n, None, data, r)
      else
        do (b', err, r1) <- ReadByte fuel' r;
        match err with
        | Some e => Ret (n, Some e, data, r1)
        | None => ReadUntil_loop fuel' (data ++ [b']) delim b' (n + 1) r1
        end
  end.

Definition ReadUntil (fuel : nat) (data : list byte) (delim : byte)
  (r : Reader) : outcome (int * option error * list byte * Reader) :=
  ReadUntil_loop fuel data delim 0 0 r.

(** [findNewLinePos]: [k] is [i + 1], [pb] the byte seen one step before. *)
Fixpoint findNewLinePos_loop (data : list byte) (k : nat) (pb : byte) : int :=
  match k with
  | O => -1
  | S i =>
      let cb := nth i data 0 in
      if (pb =? LF) && (cb =? CR) then Z.of_nat i
      else findNewLinePos_loop data i cb
  end.

Definition findNewLinePos (data : list byte) : int :=
  findNewLinePos_loop data (length data) 0.

(** The slice expression [data[lo:hi]] on a slice of full capacity; out of
    range it panics. *)
Definition slice (data : list byte) (lo hi : int) : option (list byte) :=
  if (0 <=? lo) && (lo <=? hi) && (hi <=? len data)
  then Some (firstn (Z.to_nat (hi - lo)) (skipn (Z.to_nat lo) data))
  else None.

(** [ReadUntilPrompt].  The variables of its loop: *)
Record cursor : Type := mkCursor {
  output : list byte;
  delimPos : int;
  linePos : int
}.

Definition cursor0 : cursor := mkCursor [] 0 0.

(** Lines 245-249: the offsets after [ReadUntil] has appended [n] bytes. *)
Definition advance (c : cursor) (n : int) (out : list byte) : cursor :=
  let delimPos' := delimPos c + n in
  let n' := findNewLinePos out in
  mkCursor out delimPos' (if n' =? -1 then linePos c else n' + 2).

(** A stopping predicate is a closure over the client: it may write. *)
Definition predicate : Type :=
  list byte -> TelnetClient -> bool * TelnetClient.

(** What one round of the loop did: the read failed, or the predicate was
    called on [chunk] and answered [stop]. *)
Inductive round : Type :=
| Failed (out : list byte) (e : error) (tc : TelnetClient)
| Called (c : cursor) (chunk : list byte) (stop : bool) (tc : TelnetClient).

Definition ReadUntilPrompt_round (fuel : nat) (process : predicate)
  (c : cursor) (tc : TelnetClient) : outcome round :=
  do (n, err, out, r1) <- ReadUntil fuel (output c) (Delimiter tc) (reader tc);
  let tc1 := set_reader tc r1 in
  match err with
  | Some e => Ret (Failed out e tc1)
  | None =>
      let c' := advance c n out in
      match slice (output c') (linePos c') (delimPos c') with
      | None => Panic
      | Some chunk =>
          let '(stop, tc2) := process chunk tc1 in
          Ret (Called c' chunk stop tc2)
      end
  end.

Fixpoint ReadUntilPrompt_loop (fuel : nat) (process : predicate)
  (c : cursor) (tc : TelnetClient)
  : outcome (list byte * option error * TelnetClient) :=
  match fuel with
  | O => NoFuel
  | S fuel' =>
      do rd <- ReadUntilPrompt_round fuel' process c tc;
      match rd with
      | Failed out e tc' => Ret (out, Some e, tc')
      | Called c' _ stop tc' =>
          if stop then Ret (output c', None, tc')
          else ReadUntilPrompt_loop fuel' process c' tc'
      end
  end.

Definition ReadUntilPrompt (fuel : nat) (process : predicate)
  (tc : TelnetClient) : outcome (list byte * option error * TelnetClient) :=
  ReadUntilPrompt_loop fuel process cursor0 tc.

(** The closure of [ReadUntilBanner] *)
Definition banner_found : predicate :=
  fun data tc =>
    let m := Find (BannerRe tc) data in
    (0 <? len m, tc).

(** [ReadUntilBanner] *)
Definition ReadUntilBanner (fuel : nat) (tc : TelnetClient)
  : outcome (list byte * option error * TelnetClient) :=
  do (out, err, tc') <- ReadUntilPrompt fuel banner_found tc;
  let out1 := ReplaceAll (BannerRe tc') out [] in
  let out2 := Trim out1 [SP] in
  Ret (out2, err, tc').

(** [Write]: the buffered writer is flushed at once, so the bytes go out. *)
Definition Write (data : list byte) (tc : TelnetClient)
  : int * option error * TelnetClient :=
  (len data, None, set_sent tc (sent tc ++ data)).

(** [findInputPrompt] *)
Definition findInputPrompt (re : Regexp) (response : list byte)
  (buffer : list byte) (tc : TelnetClient) : bool * TelnetClient :=
  let m := Find re buffer in
  if len m =? 0 then (false, tc)
  else
    let '(_, _, tc') := Write (response ++ CRLF) tc in
    (true, tc').

(** The closure of [waitWelcomeSigns] *)
Definition welcome_sign : predicate :=
  fun data tc =>
    let '(found, tc1) := findInputPrompt (LoginRe tc) (Login tc) data tc in
    if found then (false, tc1)
    else
      let '(found, tc2) :=
        findInputPrompt (PasswordRe tc1) (Password tc1) data tc1 in
      if found then (false, tc2)
      else
        let m := Find (BannerRe tc2) data in
        (0 <? len m, tc2).

(** [waitWelcomeSigns] *)
Definition waitWelcomeSigns (fuel : nat) (tc : TelnetClient)
  : outcome (option error * TelnetClient) :=
  do (_, err, tc') <- ReadUntilPrompt fuel welcome_sign tc;
  Ret (err, tc').

(** [Execute] *)
Definition Execute (fuel : nat) (name : list byte) (args : list (list byte))
  (tc : TelnetClient) : outcome (list byte * option error * TelnetClient) :=
  let '(_, err, r1) := bufio_Discard (bufio_Buffered (reader tc)) (reader tc) in
  let tc1 := set_reader tc r1 in
  match err with
  | Some e => Ret ([], Some e, tc1)
  | None =>
      let request := name ++ [SP] ++ Join args [SP] ++ CRLF in
      let '(_, _, tc2) := Write request tc1 in
      do (stdout, err, tc3) <- ReadUntilBanner fuel tc2;
      Ret (stdout, err, tc3)
  end.

(* ================================================================= *)
(** ** Vocabulary of the statements *)

(** The number of bytes the reader will still hand out. *)
Definition pending (r : Reader) : nat := length (unread r).

(** What the peer puts on the wire: payload bytes, option negotiations
    (IAC, one of WILL/WONT/DO/DONT, an option byte) and subnegotiation
    blocks (IAC SB, the parameters, IAC SE). *)
Inductive item : Type :=
| Payload (b : byte)
| Negotiation (c opt : byte)
| Subnegotiation (inner : list byte).

Definition wire_item (i : item) : list byte :=
  match i with
  | Payload b => [b]
  | Negotiation c opt => [IAC; c; opt]
  | Subnegotiation inner => IAC :: SB :: inner ++ [IAC; SE]
  end.

Definition wire (items : list item) : list byte := flat_map wire_item items.

Definition payload_of (items : list item) : list byte :=
  flat_map (fun i => match i with Payload b => [b] | _ => [] end) items.

(** The parameters of a block end at the first IAC SE, so they hold no
    IAC directly followed by SE. *)
Fixpoint no_IAC_SE (inner : list byte) : bool :=
  match inner with
  | a :: (b :: _) as t => negb ((a =? IAC) && (b =? SE)) && no_IAC_SE t
  | _ => true
  end.

Definition is_negotiation (c : byte) : bool :=
  (c =? WILL) || (c =? WONT) || (c =? DO) || (c =? DONT).

Definition item_ok (i : item) : bool :=
  match i with
  | Payload b => negb (b =? IAC)
  | Negotiation c _ => is_negotiation c
  | Subnegotiation inner => no_IAC_SE inner
  end.

Definition is_control (i : item) : bool :=
  match i with
  | Payload _ => false
  | _ => true
  end.

(** A caller that keeps calling [ReadByte] until it fails: the bytes it
    gets, the error that ends them and the reader left. *)
Fixpoint deliver (fuel : nat) (r : Reader)
  : outcome (list byte * error * Reader) :=
  match fuel with
  | O => NoFuel
  | S fuel' =>
      do (b, err, r1) <- ReadByte fuel' r;
      match err with
      | Some e => Ret ([], e, r1)
      | None =>
          do (l, e, r2) <- deliver fuel' r1;
          Ret (b :: l, e, r2)
      end
  end.

(** [reads r l r']: successive calls of [ReadByte], starting with the
    reader [r], return the bytes [l] without an error and leave [r']. *)
Inductive reads : Reader -> list byte -> Reader -> Prop :=
| reads_nil r : reads r [] r
| reads_cons fuel r b r1 l r2 :
    ReadByte fuel r = Ret (b, None, r1) ->
    reads r1 l r2 ->
    reads r (b :: l) r2.

(** [fails r e r']: the next call of [ReadByte] fails with [e]. *)
Definition fails (r : Reader) (e : error) (r' : Reader) : Prop :=
  exists fuel b, ReadByte fuel r = Ret (b, Some e, r').

(** A carriage return at index [i] directly followed by a newline. *)
Definition crlf_at (data : list byte) (i : nat) : Prop :=
  nth i data 0 = CR /\ nth (S i) data 0 = LF.

(** A newline at index [i] directly followed by a carriage return. *)
Definition lfcr_at (data : list byte) (i : nat) : Prop :=
  nth i data 0 = LF /\ nth (S i) data 0 = CR.

(** The line-start offset that belongs to an accumulator. *)
Definition line_start (data : list byte) : int :=
  let n := findNewLinePos data in
  if n =? -1 then 0 else n + 2.

(** The fragment of an accumulator: from its line start to its end. *)
Definition fragment (data : list byte) : list byte :=
  skipn (Z.to_nat (line_start data)) data.

(** The scan-cursor invariant. *)
Definition cursor_ok (c : cursor) : Prop :=
  0 <= linePos c /\ linePos c <= delimPos c
  /\ delimPos c = len (output c)
  /\ linePos c = line_start (output c).

(** The loop heads of a run of [ReadUntilPrompt] that started with the
    client [tc0]: the start, and what a round leaves when the predicate
    has answered "go on". *)
Inductive visited (process : predicate) (tc0 : TelnetClient)
  : cursor -> TelnetClient -> Prop :=
| visited_start : visited process tc0 cursor0 tc0
| visited_next fuel c tc c' chunk tc' :
    visited process tc0 c tc ->
    ReadUntilPrompt_round fuel process c tc = Ret (Called c' chunk false tc') ->
    visited process tc0 c' tc'.

(** The client as [Dial] leaves it when only the credentials were set:
    [setDefaultParams] has filled in the delimiter and the three
    patterns. *)
Definition dialled (login password : list byte) (r : Reader) : TelnetClient :=
  mkClient login password r [] defaultDelimiter
           defaultLoginRe defaultPasswordRe defaultBannerRe.

(** A connection on which [s] arrives in one piece and nothing after. *)
Definition arriving (s : list byte) : Reader :=
  match s with
  | [] => mkReader [] [] EOF
  | b :: t => mkReader [] [(b, t)] EOF
  end.

(** A stopping predicate that records the chunk it is called on (it
    writes it to the connection) and stops. *)
Definition echo : predicate :=
  fun data tc => let '(_, _, tc') := Write data tc in (true, tc').

(** The client after [Execute] has dropped what was buffered and sent the
    request. *)
Definition submitted (name : list byte) (args : list (list byte))
  (tc : TelnetClient) : TelnetClient :=
  set_sent
    (set_reader tc (mkReader [] (conn (reader tc)) (rerr (reader tc))))
    (sent tc ++ name ++ [SP] ++ Join args [SP] ++ CRLF).

(** Every delimiter-ended prefix of [out] has a fragment that [pred]
    rejects. *)
Definition all_rejected (pred : list byte -> bool) (delim : byte)
  (out : list byte) : Prop :=
  forall p q, out = p ++ delim :: q -> pred (fragment (p ++ [delim])) = false.

(** [out] ends with a delimiter, [pred] accepts its fragment, and rejects
    the fragment of every shorter delimiter-ended prefix: the scan stops
    at [out] and not before. *)
Definition stops_at (pred : list byte -> bool) (delim : byte)
  (out : list byte) : Prop :=
  pred (fragment out) = true
  /\ (exists p, out = p ++ [delim])
  /\ forall p q, out = p ++ delim :: q -> q <> [] ->
                 pred (fragment (p ++ [delim])) = false.

(** The test the closure of [ReadUntilBanner] makes, for a pattern. *)
Definition has_match (re : Regexp) (data : list byte) : bool :=
  0 <? len (Find re data).

(** What a run of [ReadUntil] that started from [r] with the slice [data]
    has done when it returns [(n, err)], the slice [data'] and [r']:
    [l] is what it appended. *)
Definition appended (data : list byte) (delim : byte) (n : int)
  (r : Reader) (n' : int) (err : option error) (data' : list byte)
  (r' : Reader) (l : list byte) : Prop :=
  data' = data ++ l /\ n' = n + len l
  /\ match err with
     | None =>
         exists p, l = p ++ [delim] /\ ~ In delim p /\ reads r l r'
     | Some e =>
         ~ In delim l /\ exists r1, reads r l r1 /\ fails r1 e r'
     end.

(** Whether a buffer holds a carriage return directly followed by a
    newline. *)
Fixpoint has_crlf (data : list byte) : bool :=
  match data with
  | a :: (b :: _) as t => ((a =? CR) && (b =? LF)) || has_crlf t
  | _ => false
  end.

(** A stopping predicate that leaves the read side of the connection and
    the delimiter alone. *)
Definition keeps_connection (process : predicate) : Prop :=
  forall chunk tc,
    reader (snd (process chunk tc)) = reader tc
    /\ Delimiter (snd (process chunk tc)) = Delimiter tc.

(** Two clients with the same credentials, delimiter and patterns. *)
Definition same_settings (a b : TelnetClient) : Prop :=
  Login a = Login b /\ Password a = Password b
  /\ Delimiter a = Delimiter b
  /\ LoginRe a = LoginRe b /\ PasswordRe a = PasswordRe b
  /\ BannerRe a = BannerRe b.

(** The two things the login predicate may write. *)
Definition is_response (tc : TelnetClient) (x : list byte) : Prop :=
  x = Login tc ++ CRLF \/ x = Password tc ++ CRLF.

(* ================================================================= *)
(** ** Connections and clients of the worked examples *)

Definition sample_items : list item :=
  [Payload 104; Negotiation WILL 1; Payload 105;
   Subnegotiation []; Payload 33;
   Subnegotiation [24; IAC; 1]; Negotiation DONT IAC; Payload 10].

Definition sample_reader : Reader :=
  mkReader [104; 255] [(251, [1; 105; 255; 250; 255]);
                       (240, [33; 255; 250; 24; 255; 1; 255; 240; 255; 254]);
                       (255, [10])] EOF.

Definition scan_start : TelnetClient :=
  dialled (bytes_of "admin") (bytes_of "secret") (arriving (bytes_of "ab cd ")).

Definition scan_cursor : cursor := mkCursor (bytes_of "ab ") 3 0.

Definition scan_client : TelnetClient :=
  set_reader scan_start (mkReader (bytes_of "cd ") [] EOF).

Definition lfcr_buffer : list byte := bytes_of "abc" ++ [LF; CR] ++ bytes_of "def".

Definition crlf_buffer : list byte :=
  bytes_of "abc" ++ [CR; LF] ++ bytes_of "def".

(** A client whose delimiter is ['f'], so that one [ReadUntil] reads the
    whole buffer. *)
Definition one_read_client (s : list byte) : TelnetClient :=
  mkClient [] [] (arriving s) [] 102
           defaultLoginRe defaultPasswordRe defaultBannerRe.

Definition both_prompts : list byte := bytes_of "host login: Password: ".

Definition login_client : TelnetClient :=
  dialled (bytes_of "admin") (bytes_of "secret") (arriving []).

Definition cut_off_client : TelnetClient :=
  dialled (bytes_of "admin") (bytes_of "secret") (arriving (bytes_of "abc")).

Definition cut_off_after : TelnetClient :=
  set_reader cut_off_client (mkReader [] [] EOF).

Definition ls_received : list byte :=
  [LF; CR] ++ bytes_of "file1" ++ [LF] ++ bytes_of "file2"
    ++ [LF; CR] ++ bytes_of "user@host:~$ ".

Definition ls_client : TelnetClient :=
  dialled (bytes_of "admin") (bytes_of "secret") (arriving ls_received).

Definition ls_stdout : list byte :=
  [LF; CR] ++ bytes_of "file1" ++ [LF] ++ bytes_of "file2" ++ [LF; CR].

Definition ls_after : TelnetClient :=
  set_sent (set_reader ls_client (mkReader [] [] EOF))
           (bytes_of "ls -l" ++ CRLF).

(** The descriptor as the caller fills it in before [Dial]: the exported
    fields of [TelnetClient], a pattern or the log writer being [None]
    when it is nil.  [W] stands for [*bufio.Writer]. *)
Record Descriptor (W : Type) : Type := mkDescriptor {
  dLogin : list byte;
  dPassword : list byte;
  dAddress : list byte;
  dPort : list byte;
  dConnTimeout : int;
  dReadTimeout : int;
  dVerbose : bool;
  dLogWriter : option W;
  dDelimiter : byte;
  dLoginRe : option Regexp;
  dPasswordRe : option Regexp;
  dBannerRe : option Regexp
}.
Arguments mkDescriptor {W}.
Arguments dLogin {W}.
Arguments dPassword {W}.
Arguments dAddress {W}.
Arguments dPort {W}.
Arguments dConnTimeout {W}.
Arguments dReadTimeout {W}.
Arguments dVerbose {W}.
Arguments dLogWriter {W}.
Arguments dDelimiter {W}.
Arguments dLoginRe {W}.
Arguments dPasswordRe {W}.
Arguments dBannerRe {W}.

(** [time.Second], in nanoseconds. *)
Definition Second : int := 1000000000.

Definition or_default {A : Type} (o : option A) (d : A) : option A :=
  match o with
  | Some _ => o
  | None => Some d
  end.

(** [setDefaultParams]; [stdout] is [bufio.NewWriter(os.Stdout)]. *)
Definition setDefaultParams {W : Type} (stdout : W) (d : Descriptor W)
  : Descriptor W :=
  mkDescriptor
    (dLogin d) (dPassword d) (dAddress d)
    (match dPort d with [] => bytes_of "23" | _ :: _ => dPort d end)
    (dConnTimeout d)
    (if dReadTimeout d =? 0 then 10 * Second else dReadTimeout d)
    (dVerbose d)
    (if dVerbose d then or_default (dLogWriter d) stdout else dLogWriter d)
    (if dDelimiter d =? 0 then defaultDelimiter else dDelimiter d)
    (or_default (dLoginRe d) defaultLoginRe)
    (or_default (dPasswordRe d) defaultPasswordRe)
    (or_default (dBannerRe d) defaultBannerRe).

Definition handshake_received : list byte :=
  bytes_of "host login: " ++ CRLF ++ bytes_of "Password: " ++ CRLF
    ++ bytes_of "user@host:~$ ".

Definition handshake_client : TelnetClient :=
  dialled (bytes_of "admin") (bytes_of "secret") (arriving handshake_received).

Definition handshake_done : TelnetClient :=
  set_sent (set_reader handshake_client (mkReader [] [] EOF))
           (bytes_of "admin" ++ CRLF ++ bytes_of "secret" ++ CRLF).

(** The client that [Dial] sets to work once the connection stands: the
    settings of the descriptor, the reader over the new connection, and
    nothing sent yet.  A nil pattern has no client: using it panics. *)
Definition session {W : Type} (d : Descriptor W) (r : Reader)
  : option TelnetClient :=
  match dLoginRe d, dPasswordRe d, dBannerRe d with
  | Some lre, Some pre, Some bre =>
      Some (mkClient (dLogin d) (dPassword d) r [] (dDelimiter d)
                     lre pre bre)
  | _, _, _ => None
  end.

(** [Dial].  [connect] is what [net.Dial] (or [net.DialTimeout]) gives, an
    error or the connection with all it will deliver; [deadline] is the
    result of [SetReadDeadline].  The result is the error and, once
    connected, the client. *)
Definition Dial {W : Type} (fuel : nat) (stdout : W) (d : Descriptor W)
  (connect : error + Reader) (deadline : option error)
  : outcome (option error * option TelnetClient) :=
  let d' := setDefaultParams stdout d in
  match connect with
  | inl e => Ret (Some e, None)
  | inr r =>
      match deadline with
      | Some e => Ret (Some e, session d' r)
      | None =>
          match session d' r with
          | None => Panic
          | Some tc =>
              do (err, tc') <- waitWelcomeSigns fuel tc;
              Ret (err, Some tc')
          end
      end
  end.

Definition spaced_client : TelnetClient :=
  dialled [] [] (arriving (bytes_of "  a b  user@host:~$ ")).

(** A descriptor with nothing set but the credentials. *)
Definition bare_descriptor : Descriptor unit :=
  mkDescriptor (bytes_of "admin") (bytes_of "secret") (bytes_of "10.0.0.1")
               [] 0 0 false None 0 None None None.

(* ================================================================= *)
(** * Properties *)

(** ** The reader, seen as the list of bytes it will hand out *)

Ltac inv H := inversion H; subst; clear H.

Lemma bufio_ReadByte_nil r :
  unread r = [] -> bufio_ReadByte r = (0, Some (rerr r), r).
Proof.
  unfold unread, bufio_ReadByte. destruct r as [buf cs e]; simpl.
  destruct buf; simpl; [|discriminate].
  destruct cs as [|[c rest] cs]; simpl; [reflexivity|discriminate].
Qed.

Lemma bufio_ReadByte_cons r b t :
  unread r = b :: t ->
  exists r', bufio_ReadByte r = (b, None, r')
             /\ unread r' = t /\ rerr r' = rerr r.
Proof.
  unfold unread, bufio_ReadByte. destruct r as [buf cs e]; simpl.
  destruct buf as [|c buf]; simpl.
  - destruct cs as [|[c rest] cs]; simpl; [discriminate|].
    intros H; inv H. eexists; repeat split.
  - intros H; inv H. eexists; repeat split.
Qed.

Lemma peek_fill_spec n : forall cs buf buf' cs',
  peek_fill n buf cs = (buf', cs') ->
  buf' ++ flat_map chunk_bytes cs' = buf ++ flat_map chunk_bytes cs
  /\ ((n <= length (buf ++ flat_map chunk_bytes cs))%nat ->
      (n <= length buf')%nat)
  /\ ((length (buf ++ flat_map chunk_bytes cs) < n)%nat -> cs' = []).
Proof.
  induction cs as [|c cs IH]; intros buf buf' cs'; simpl.
  - assert (H0 : (if (n <=? length buf)%nat then (buf, @nil chunk)
                  else (buf, [])) = (buf, [])) by (destruct (_ <=? _)%nat; auto).
    rewrite H0. intros H; inv H. simpl. rewrite !app_nil_r. auto.
  - destruct (n <=? length buf)%nat eqn:E.
    + intros H; inv H. apply Nat.leb_le in E.
      repeat split; auto. rewrite length_app. lia.
    + intros H. apply IH in H. rewrite <- app_assoc in H. exact H.
Qed.

Lemma bufio_Peek_spec n r :
  exists p e r',
    bufio_Peek n r = (p, e, r')
    /\ unread r' = unread r /\ rerr r' = rerr r
    /\ ((n <= length (unread r))%nat ->
        e = None /\ p = firstn n (unread r))
    /\ ((length (unread r) < n)%nat -> e = Some (rerr r)).
Proof.
  unfold bufio_Peek, unread. destruct r as [buf cs e]; simpl.
  destruct (peek_fill n buf cs) as [buf' cs'] eqn:E.
  apply peek_fill_spec in E. destruct E as (E1 & E2 & E3).
  destruct (n <=? length buf')%nat eqn:L.
  - apply Nat.leb_le in L. do 3 eexists. split; [reflexivity|]. simpl.
    split; [exact E1|]. split; [reflexivity|]. split.
    + intros _. split; [reflexivity|].
      rewrite <- E1, firstn_app.
      replace (n - length buf')%nat with 0%nat by lia.
      simpl. now rewrite app_nil_r.
    + intros H. rewrite <- E1 in H. rewrite length_app in H. lia.
  - apply Nat.leb_gt in L. do 3 eexists. split; [reflexivity|]. simpl.
    split; [exact E1|]. split; [reflexivity|]. split.
    + intros H. apply E2 in H. lia.
    + intros _. reflexivity.
Qed.

Lemma discard_conn_spec : forall cs n remain ok buf cs',
  (0 < n)%nat ->
  discard_conn n cs = (remain, ok, (buf, cs')) ->
  let s := flat_map chunk_bytes cs in
  ((n <= length s)%nat ->
     remain = 0%nat /\ ok = true
     /\ buf ++ flat_map chunk_bytes cs' = skipn n s)
  /\ ((length s < n)%nat ->
      remain = (n - length s)%nat /\ ok = false /\ buf = [] /\ cs' = []).
Proof.
  induction cs as [|c cs IH]; intros n remain ok buf cs' Hn; simpl.
  - intros H; inversion H; subst remain ok buf cs'; clear H.
    split; [lia|]. intros _. split; [lia|auto].
  - change (fst c :: snd c ++ flat_map chunk_bytes cs)
      with (chunk_bytes c ++ flat_map chunk_bytes cs).
    change (S (length (snd c))) with (length (chunk_bytes c)).
    rewrite length_app.
    assert (Hc : length (chunk_bytes c) = S (length (snd c))) by reflexivity.
    destruct (n <=? length (chunk_bytes c))%nat eqn:E.
    + intros H; inversion H; subst remain ok buf cs'; clear H.
      apply Nat.leb_le in E. split; [|lia].
      intros _. split; [reflexivity|]. split; [reflexivity|].
      rewrite skipn_app.
      replace (n - length (chunk_bytes c))%nat with 0%nat by lia.
      reflexivity.
    + intros H. apply Nat.leb_gt in E. apply IH in H; [|lia].
      destruct H as [H1 H2]. split; intros L.
      * destruct H1 as (-> & -> & H1); [lia|].
        split; [reflexivity|]. split; [reflexivity|].
        rewrite H1, skipn_app.
        rewrite (skipn_all2 (chunk_bytes c)) by lia. reflexivity.
      * destruct H2 as (-> & -> & -> & ->); [lia|].
        split; [lia|auto].
Qed.

Lemma bufio_Discard_spec n r :
  exists k e r',
    bufio_Discard n r = (k, e, r')
    /\ rerr r' = rerr r
    /\ ((n <= length (unread r))%nat ->
        k = n /\ e = None /\ unread r' = skipn n (unread r))
    /\ ((length (unread r) < n)%nat ->
        k = length (unread r) /\ e = Some (rerr r) /\ unread r' = []).
Proof.
  unfold bufio_Discard, unread. destruct r as [buf cs e]; simpl.
  destruct (n =? 0)%nat eqn:Z.
  - apply Nat.eqb_eq in Z; subst. do 3 eexists. split; [reflexivity|].
    simpl. split; [reflexivity|]. split; [auto|lia].
  - apply Nat.eqb_neq in Z.
    destruct (n <=? length buf)%nat eqn:L.
    + apply Nat.leb_le in L. do 3 eexists. split; [reflexivity|]. simpl.
      split; [reflexivity|]. rewrite length_app. split; [|lia].
      intros _. split; [reflexivity|]. split; [reflexivity|].
      rewrite skipn_app.
      replace (n - length buf)%nat with 0%nat by lia. reflexivity.
    + apply Nat.leb_gt in L.
      destruct (discard_conn (n - length buf) cs)
        as [[remain ok] [buf' cs']] eqn:D.
      apply discard_conn_spec in D; [|lia]. destruct D as [D1 D2].
      do 3 eexists. split; [reflexivity|]. simpl.
      rewrite length_app. split; [reflexivity|]. split; intros H.
      * destruct D1 as (-> & -> & D1); [lia|].
        split; [lia|]. split; [reflexivity|]. rewrite D1.
        rewrite skipn_app. rewrite (skipn_all2 buf) by lia. reflexivity.
      * destruct D2 as (-> & -> & -> & ->); [lia|].
        split; [lia|]. split; reflexivity.
Qed.

(** The three reader operations by cases, over [unread]. *)

Lemma bufio_ReadByte_cases r :
  (unread r = [] /\ bufio_ReadByte r = (0, Some (rerr r), r))
  \/ (exists b t r', unread r = b :: t
        /\ bufio_ReadByte r = (b, None, r')
        /\ unread r' = t /\ rerr r' = rerr r).
Proof.
  destruct (unread r) as [|b t] eqn:E.
  - left. split; [reflexivity|]. now apply bufio_ReadByte_nil.
  - right. destruct (bufio_ReadByte_cons r b t E) as (r' & H1 & H2 & H3).
    exists b, t, r'. auto.
Qed.

Lemma bufio_Peek_cases n r :
  exists p e r',
    bufio_Peek n r = (p, e, r')
    /\ unread r' = unread r /\ rerr r' = rerr r
    /\ ((e = None /\ (n <= length (unread r))%nat
         /\ p = firstn n (unread r))
        \/ (e = Some (rerr r) /\ (length (unread r) < n)%nat)).
Proof.
  destruct (bufio_Peek_spec n r) as (p & e & r' & H & Hu & He & H1 & H2).
  exists p, e, r'. repeat (split; [assumption|]).
  destruct (le_lt_dec n (length (unread r))) as [L|L].
  - left. destruct (H1 L). auto.
  - right. auto.
Qed.

Lemma bufio_Discard_cases n r :
  exists k e r',
    bufio_Discard n r = (k, e, r')
    /\ rerr r' = rerr r
    /\ ((e = None /\ (n <= length (unread r))%nat
         /\ unread r' = skipn n (unread r))
        \/ (e = Some (rerr r) /\ (length (unread r) < n)%nat
            /\ unread r' = [])).
Proof.
  destruct (bufio_Discard_spec n r) as (k & e & r' & H & He & H1 & H2).
  exists k, e, r'. repeat (split; [assumption|]).
  destruct (le_lt_dec n (length (unread r))) as [L|L].
  - left. destruct (H1 L) as (_ & ? & ?). auto.
  - right. destruct (H2 L) as (_ & ? & ?). auto.
Qed.

Ltac on_Discard n r k e r' Hr Hc :=
  let H := fresh "H" in
  destruct (bufio_Discard_cases n r) as (k & e & r' & H & Hr & Hc);
  rewrite H; clear H.

Ltac on_Peek n r p e r' Hu Hr Hc :=
  let H := fresh "H" in
  destruct (bufio_Peek_cases n r) as (p & e & r' & H & Hu & Hr & Hc);
  rewrite H; clear H.

(* ----------------------------------------------------------------- *)
(** ** The decoder returns: enough budget for what is unread *)

Lemma skipSBSequence_returns : forall fuel r,
  (pending r < fuel)%nat ->
  exists e r', skipSBSequence fuel r = Ret (e, r')
               /\ (pending r' <= pending r)%nat /\ rerr r' = rerr r.
Proof.
  unfold pending.
  induction fuel as [|fuel IH]; intros r Hf; [lia|]. simpl.
  on_Discard 1%nat r k e r1 Hr1 Hc1.
  destruct Hc1 as [(-> & L1 & U1)|(-> & L1 & U1)].
  2:{ do 2 eexists. split; [reflexivity|]. rewrite U1. simpl. split; [lia|auto]. }
  assert (P1 : (S (length (unread r1)) = length (unread r))%nat).
  { rewrite U1, length_skipn. lia. }
  on_Peek 2%nat r1 p e r2 Hu2 Hr2 Hc2.
  destruct Hc2 as [(-> & L2 & ->)|(-> & L2)].
  2:{ do 2 eexists. split; [reflexivity|]. rewrite Hu2. split; [lia|congruence]. }
  destruct (_ && _).
  - on_Discard 2%nat r2 k3 e3 r3 Hr3 Hc3.
    do 2 eexists. split; [reflexivity|]. split; [|congruence].
    destruct Hc3 as [(_ & _ & U3)|(_ & _ & U3)]; rewrite U3.
    + rewrite length_skipn, Hu2. lia.
    + simpl. lia.
  - destruct (IH r2) as (e & r' & H & Hl & Hr); [rewrite Hu2; lia|].
    exists e, r'. split; [exact H|]. rewrite Hu2 in Hl. split; [lia|congruence].
Qed.

Lemma skipCommand_returns fuel r :
  (pending r < fuel)%nat ->
  exists e r', skipCommand fuel r = Ret (e, r')
               /\ (pending r' <= pending r)%nat /\ rerr r' = rerr r.
Proof.
  unfold skipCommand. intros Hf.
  on_Peek 1%nat r p e r1 Hu1 Hr1 Hc1.
  assert (P1 : pending r1 = pending r) by (unfold pending; congruence).
  destruct Hc1 as [(-> & L1 & ->)|(-> & L1)].
  2:{ do 2 eexists. split; [reflexivity|]. split; [lia|auto]. }
  destruct (_ || _).
  - on_Discard 2%nat r1 k2 e2 r2 Hr2 Hc2.
    do 2 eexists. split; [reflexivity|]. split; [|congruence].
    unfold pending in *.
    destruct Hc2 as [(_ & _ & U)|(_ & _ & U)]; rewrite U.
    + rewrite length_skipn. lia.
    + simpl. lia.
  - destruct (_ =? SB).
    + destruct (skipSBSequence_returns fuel r1) as (e & r' & H & Hl & Hr);
        [lia|].
      exists e, r'. split; [exact H|]. split; [lia|congruence].
    + do 2 eexists. split; [reflexivity|]. split; [lia|auto].
Qed.

Lemma ReadByte_returns : forall fuel r,
  (pending r < fuel)%nat ->
  exists b e r', ReadByte fuel r = Ret (b, e, r')
    /\ (pending r' <= pending r)%nat
    /\ (e = None -> (pending r' < pending r)%nat)
    /\ rerr r' = rerr r.
Proof.
  induction fuel as [|fuel IH]; intros r Hf; [lia|]. simpl.
  destruct (bufio_ReadByte_cases r) as [(U & ->)|(b & t & r1 & U & -> & U1 & R1)].
  - do 3 eexists. split; [reflexivity|]. split; [lia|]. split; [discriminate|auto].
  - assert (P1 : S (pending r1) = pending r).
    { unfold pending. rewrite U, U1. reflexivity. }
    destruct (negb (b =? IAC)).
    + do 3 eexists. split; [reflexivity|]. split; [lia|]. split; [lia|auto].
    + destruct (skipCommand_returns fuel r1) as (e & r2 & -> & L2 & R2); [lia|].
      simpl. destruct e.
      * do 3 eexists. split; [reflexivity|].
        split; [lia|]. split; [discriminate|congruence].
      * destruct (IH r2) as (b' & e' & r3 & -> & L3 & D3 & R3); [lia|].
        do 3 eexists. split; [reflexivity|].
        split; [lia|]. split; [lia|congruence].
Qed.

(* ----------------------------------------------------------------- *)
(** ** The decoder on control sequences *)

Lemma skipSBSequence_block : forall inner x rest r fuel,
  no_IAC_SE inner = true ->
  unread r = x :: inner ++ IAC :: SE :: rest ->
  (length inner < fuel)%nat ->
  exists r', skipSBSequence fuel r = Ret (None, r')
             /\ unread r' = rest /\ rerr r' = rerr r.
Proof.
  induction inner as [|a inner IH]; intros x rest r fuel Hok U Hf;
    (destruct fuel as [|fuel]; [simpl in Hf; lia|]); simpl.
  - on_Discard 1%nat r k e r1 Hr1 Hc1.
    destruct Hc1 as [(-> & _ & U1)|(_ & L & _)];
      [|rewrite U in L; simpl in L; lia].
    rewrite U in U1; simpl in U1.
    on_Peek 2%nat r1 p e r2 Hu2 Hr2 Hc2.
    destruct Hc2 as [(-> & _ & ->)|(_ & L)];
      [|rewrite U1 in L; simpl in L; lia].
    rewrite U1. simpl.
    on_Discard 2%nat r2 k3 e3 r3 Hr3 Hc3.
    destruct Hc3 as [(-> & _ & U3)|(_ & L & _)];
      [|rewrite Hu2, U1 in L; simpl in L; lia].
    exists r3. split; [reflexivity|]. rewrite U3, Hu2, U1. simpl.
    split; [reflexivity|congruence].
  - on_Discard 1%nat r k e r1 Hr1 Hc1.
    destruct Hc1 as [(-> & _ & U1)|(_ & L & _)];
      [|rewrite U in L; simpl in L; lia].
    rewrite U in U1; simpl in U1.
    on_Peek 2%nat r1 p e r2 Hu2 Hr2 Hc2.
    destruct Hc2 as [(-> & _ & ->)|(_ & L)].
    2:{ rewrite U1 in L; simpl in L. rewrite length_app in L.
        simpl in L. lia. }
    assert (C : (nth 0 (firstn 2 (unread r1)) 0 =? IAC)
                && (nth 1 (firstn 2 (unread r1)) 0 =? SE) = false).
    { rewrite U1. destruct inner as [|b inner]; simpl.
      - apply andb_false_r.
      - simpl in Hok. apply andb_prop in Hok. destruct Hok as [Hok _].
        now apply negb_true_iff in Hok. }
    rewrite C.
    destruct (IH a rest r2 fuel) as (r' & H & U' & R').
    + simpl in Hok. destruct inner; [reflexivity|].
      apply andb_prop in Hok. tauto.
    + congruence.
    + simpl in Hf. lia.
    + exists r'. split; [exact H|]. split; [exact U'|congruence].
Qed.

Lemma skipCommand_negotiation fuel r c opt rest :
  is_negotiation c = true ->
  unread r = c :: opt :: rest ->
  exists r', skipCommand fuel r = Ret (None, r')
             /\ unread r' = rest /\ rerr r' = rerr r.
Proof.
  intros Hc U. unfold skipCommand.
  on_Peek 1%nat r p e r1 Hu1 Hr1 Hc1.
  destruct Hc1 as [(-> & _ & ->)|(_ & L)];
    [|rewrite U in L; simpl in L; lia].
  rewrite U. simpl. unfold is_negotiation in Hc. rewrite Hc.
  on_Discard 2%nat r1 k2 e2 r2 Hr2 Hc2.
  destruct Hc2 as [(-> & _ & U2)|(_ & L & _)];
    [|rewrite Hu1, U in L; simpl in L; lia].
  exists r2. split; [reflexivity|]. rewrite U2, Hu1, U.
  split; [reflexivity|congruence].
Qed.

Lemma skipCommand_subnegotiation fuel r inner rest :
  no_IAC_SE inner = true ->
  unread r = SB :: inner ++ IAC :: SE :: rest ->
  (length inner < fuel)%nat ->
  exists r', skipCommand fuel r = Ret (None, r')
             /\ unread r' = rest /\ rerr r' = rerr r.
Proof.
  intros Hok U Hf. unfold skipCommand.
  on_Peek 1%nat r p e r1 Hu1 Hr1 Hc1.
  destruct Hc1 as [(-> & _ & ->)|(_ & L)];
    [|rewrite U in L; simpl in L; lia].
  rewrite U. simpl.
  destruct (skipSBSequence_block inner SB rest r1 fuel Hok)
    as (r' & H & U' & R'); [congruence|assumption|].
  exists r'. split; [exact H|]. split; [exact U'|congruence].
Qed.

(** Any other byte after the escape marker: nothing is skipped. *)
Lemma skipCommand_other fuel r c rest :
  is_negotiation c = false -> c <> SB ->
  unread r = c :: rest ->
  exists r', skipCommand fuel r = Ret (None, r')
             /\ unread r' = c :: rest /\ rerr r' = rerr r.
Proof.
  intros Hc Hsb U. unfold skipCommand.
  on_Peek 1%nat r p e r1 Hu1 Hr1 Hc1.
  destruct Hc1 as [(-> & _ & ->)|(_ & L)];
    [|rewrite U in L; simpl in L; lia].
  rewrite U. simpl. unfold is_negotiation in Hc. rewrite Hc.
  apply Z.eqb_neq in Hsb. rewrite Hsb.
  exists r1. split; [reflexivity|]. split; congruence.
Qed.

Lemma ReadByte_end fuel r :
  unread r = [] -> ReadByte (S fuel) r = Ret (0, Some (rerr r), r).
Proof.
  intros U. simpl. now rewrite (bufio_ReadByte_nil r U).
Qed.

Lemma ReadByte_payload fuel r b rest :
  b <> IAC -> unread r = b :: rest ->
  exists r', ReadByte (S fuel) r = Ret (b, None, r')
             /\ unread r' = rest /\ rerr r' = rerr r.
Proof.
  intros Hb U. simpl.
  destruct (bufio_ReadByte_cons r b rest U) as (r' & -> & U' & R').
  apply Z.eqb_neq in Hb. rewrite Hb. simpl. eauto.
Qed.

(** Behind any run of well-formed control sequences, [ReadByte] finds the
    next payload byte, or the end of the stream. *)
Lemma ReadByte_wire : forall items fuel r s,
  forallb item_ok items = true -> forallb is_control items = true ->
  unread r = wire items ++ s ->
  (length (wire items ++ s) < fuel)%nat ->
  match s with
  | [] => exists b r', ReadByte fuel r = Ret (b, Some (rerr r), r')
                       /\ unread r' = []
  | b :: rest =>
      b <> IAC ->
      exists r', ReadByte fuel r = Ret (b, None, r')
                 /\ unread r' = rest /\ rerr r' = rerr r
  end.
Proof.
  induction items as [|i items IH]; intros fuel r s Hok Hctl U Hf;
    (destruct fuel as [|fuel]; [lia|]).
  - simpl in U. destruct s as [|b rest].
    + exists 0, r. split; [now apply ReadByte_end|assumption].
    + intros Hb. now apply ReadByte_payload.
  - simpl in Hok, Hctl. apply andb_prop in Hok. destruct Hok as [Hi Hok].
    apply andb_prop in Hctl. destruct Hctl as [Ci Hctl].
    change (wire (i :: items)) with (wire_item i ++ wire items) in *.
    rewrite <- app_assoc in U, Hf.
    assert (Step : exists r2, ReadByte (S fuel) r = ReadByte fuel r2
                              /\ unread r2 = wire items ++ s
                              /\ rerr r2 = rerr r).
    { destruct i as [b|c opt|inner]; [discriminate| |]; simpl in U, Hi |- *.
      - destruct (bufio_ReadByte_cons r _ _ U) as (r1 & -> & U1 & R1).
        simpl.
        destruct (skipCommand_negotiation fuel r1 c opt _ Hi U1)
          as (r2 & -> & U2 & R2).
        simpl. exists r2. split; [reflexivity|]. split; congruence.
      - destruct (bufio_ReadByte_cons r _ _ U) as (r1 & -> & U1 & R1).
        simpl. rewrite <- app_assoc in U1. simpl in U1.
        destruct (skipCommand_subnegotiation fuel r1 inner _ Hi U1)
          as (r2 & -> & U2 & R2).
        { simpl in Hf. rewrite !length_app in Hf. lia. }
        simpl. exists r2. split; [reflexivity|]. split; congruence. }
    destruct Step as (r2 & -> & U2 & R2).
    assert (Hf2 : (length (wire items ++ s) < fuel)%nat).
    { rewrite length_app in Hf.
      assert (0 < length (wire_item i))%nat by (destruct i; simpl; lia).
      lia. }
    specialize (IH fuel r2 s Hok Hctl U2 Hf2).
    rewrite <- R2. exact IH.
Qed.

Lemma deliver_wire_from : forall items ctl fuel r,
  forallb item_ok items = true ->
  forallb item_ok ctl = true -> forallb is_control ctl = true ->
  unread r = wire ctl ++ wire items ->
  (S (pending r) < fuel)%nat ->
  exists r', deliver fuel r = Ret (payload_of items, rerr r, r')
             /\ unread r' = [].
Proof.
  unfold pending.
  induction items as [|i items IH]; intros ctl fuel r Hok Hc1 Hc2 U Hf;
    (destruct fuel as [|fuel]; [lia|]).
  - simpl in U. pose proof (ReadByte_wire ctl fuel r [] Hc1 Hc2 U) as H.
    simpl in H. destruct H as (b & r' & H & U'); [rewrite <- U; lia|].
    exists r'. simpl. rewrite H. simpl. auto.
  - simpl in Hok. apply andb_prop in Hok. destruct Hok as [Hi Hok].
    destruct (is_control i) eqn:Ci.
    + assert (P : payload_of (i :: items) = payload_of items)
        by (destruct i; [discriminate|reflexivity|reflexivity]).
      rewrite P. apply (IH (ctl ++ [i])); auto.
      * rewrite forallb_app, Hc1. simpl. now rewrite Hi.
      * rewrite forallb_app, Hc2. simpl. now rewrite Ci.
      * rewrite U. unfold wire. rewrite flat_map_app. simpl.
        rewrite app_nil_r, <- app_assoc. reflexivity.
    + destruct i as [b| |]; try discriminate. simpl in Hi.
      apply negb_true_iff, Z.eqb_neq in Hi.
      change (wire (Payload b :: items)) with (b :: wire items) in U.
      pose proof (ReadByte_wire ctl fuel r (b :: wire items) Hc1 Hc2 U) as H.
      simpl in H. destruct H as (r1 & H & U1 & R1); [rewrite <- U; lia|exact Hi|].
      destruct (IH [] fuel r1 Hok eq_refl eq_refl) as (r' & D & U').
      * exact U1.
      * rewrite U1. rewrite U in Hf. rewrite length_app in Hf. simpl in Hf. lia.
      * exists r'. simpl. rewrite H. simpl. rewrite D. simpl.
        rewrite R1. auto.
Qed.

(** C7.  Whatever the peer sends as payload bytes interleaved with option
    negotiations (IAC, WILL/WONT/DO/DONT, option byte) and subnegotiation
    blocks (IAC SB, parameters of any length, IAC SE), the decoder hands
    the caller exactly the payload bytes, unchanged and in order, and then
    the error that ends the stream: every control sequence is consumed in
    full.  This holds however the bytes are split between the buffer and
    the chunks still to arrive. *)
Theorem decoder_delivers_payload (items : list item) (fuel : nat) (r : Reader) :
  forallb item_ok items = true ->
  unread r = wire items ->
  (S (pending r) < fuel)%nat ->
  exists r', deliver fuel r = Ret (payload_of items, rerr r, r')
             /\ unread r' = [].
Proof.
  intros Hok U Hf.
  now apply (deliver_wire_from items [] fuel r).
Qed.

Lemma decoder_delivers_payload_witness :
  exists r', deliver 40 sample_reader = Ret ([104; 105; 33; 10], EOF, r')
             /\ unread r' = [].
Proof.
  apply (decoder_delivers_payload sample_items 40 sample_reader);
    [reflexivity | reflexivity | vm_compute; lia].
Defined.

(** C10.  When [ReadByte] returns without an error, the byte it returns is
    not the escape marker; so an escaped IAC IAC in the stream never comes
    out as a 255 byte. *)
Theorem ReadByte_never_returns_IAC :
  (forall fuel r b r', ReadByte fuel r = Ret (b, None, r') -> b <> IAC)
  /\ (forall fuel r rest b r',
        unread r = IAC :: IAC :: rest ->
        ReadByte fuel r = Ret (b, None, r') -> b <> 255).
Proof.
  assert (G : forall fuel r b r',
             ReadByte fuel r = Ret (b, None, r') -> b <> IAC).
  { induction fuel as [|fuel IH]; intros r b r'; simpl; [discriminate|].
    destruct (bufio_ReadByte r) as [[b0 e0] r1].
    destruct e0; [discriminate|].
    destruct (negb (b0 =? IAC)) eqn:E.
    - intros H; inversion H; subst.
      now apply negb_true_iff, Z.eqb_neq in E.
    - destruct (skipCommand fuel r1) as [[e2 r2]| |]; simpl;
        try discriminate.
      destruct e2; [discriminate|]. apply IH. }
  split; [exact G|]. intros fuel r rest b r' _ H. exact (G _ _ _ _ H).
Qed.

Lemma ReadByte_never_returns_IAC_witness :
  ReadByte 9 (mkReader [255; 255; 65] [] EOF)
    = Ret (65, None, mkReader [] [] EOF)
  /\ 65 <> IAC.
Proof.
  split; [reflexivity|].
  apply (proj1 ReadByte_never_returns_IAC 9%nat
           (mkReader [255; 255; 65] [] EOF) 65 (mkReader [] [] EOF)).
  reflexivity.
Defined.

(** What the code does with an escape marker followed by a byte that is
    none of WILL, WONT, DO, DONT, SB (and not IAC): only the marker is
    dropped and the following byte is returned as payload. *)
Lemma ReadByte_unknown_command fuel r c rest :
  is_negotiation c = false -> c <> SB -> c <> IAC ->
  unread r = IAC :: c :: rest ->
  exists r', ReadByte (S (S fuel)) r = Ret (c, None, r')
             /\ unread r' = rest.
Proof.
  intros Hn Hsb Hi U.
  destruct (bufio_ReadByte_cons r _ _ U) as (r1 & H1 & U1 & R1).
  destruct (skipCommand_other (S fuel) r1 c rest Hn Hsb U1)
    as (r2 & H2 & U2 & R2).
  destruct (ReadByte_payload fuel r2 c rest Hi U2) as (r3 & H3 & U3 & R3).
  exists r3. split; [|exact U3].
  change (ReadByte (S (S fuel)) r) with
    (let '(b, err, r1) := bufio_ReadByte r in
     match err with
     | Some e => Ret (b, Some e, r1)
     | None =>
         if negb (b =? IAC) then Ret (b, None, r1)
         else
           do (err, r2) <- skipCommand (S fuel) r1;
           match err with
           | Some e => Ret (b, Some e, r2)
           | None => ReadByte (S fuel) r2
           end
     end).
  rewrite H1. simpl negb. cbv iota. rewrite H2. simpl bind. exact H3.
Qed.

(** C3.  The stream IAC, NOP (241), 'A': the claim has the decoder drop
    IAC and NOP and hand out 'A'; the code hands out the NOP byte as
    payload and leaves 'A' unread, having dropped the marker alone. *)
Theorem ReadByte_delivers_unknown_command_byte :
  ReadByte 9 (mkReader [] [(255, [241; 65])] EOF)
  = Ret (241, None, mkReader [65] [] EOF).
Proof. reflexivity. Qed.

(* ----------------------------------------------------------------- *)
(** ** More budget changes nothing *)

Lemma skipSBSequence_mono : forall f r v,
  skipSBSequence f r = Ret v ->
  forall f', (f <= f')%nat -> skipSBSequence f' r = Ret v.
Proof.
  induction f as [|f IH]; intros r v; simpl; [discriminate|].
  intros H f' Hf. destruct f' as [|f']; [lia|]. simpl.
  destruct (bufio_Discard 1 r) as [[k e] r1]. destruct e; [exact H|].
  destruct (bufio_Peek 2 r1) as [[p e] r2]. destruct e; [exact H|].
  destruct (_ && _); [exact H|]. apply IH; [exact H|lia].
Qed.

Lemma skipCommand_mono f r v :
  skipCommand f r = Ret v ->
  forall f', (f <= f')%nat -> skipCommand f' r = Ret v.
Proof.
  unfold skipCommand. intros H f' Hf.
  destruct (bufio_Peek 1 r) as [[p e] r1]. destruct e; [exact H|].
  destruct (_ || _); [exact H|].
  destruct (_ =? SB); [|exact H].
  now apply (skipSBSequence_mono f).
Qed.

Lemma ReadByte_mono : forall f r v,
  ReadByte f r = Ret v ->
  forall f', (f <= f')%nat -> ReadByte f' r = Ret v.
Proof.
  induction f as [|f IH]; intros r v; simpl; [discriminate|].
  intros H f' Hf. destruct f' as [|f']; [lia|]. simpl.
  destruct (bufio_ReadByte r) as [[b e] r1]. destruct e; [exact H|].
  destruct (negb (b =? IAC)); [exact H|].
  destruct (skipCommand f r1) as [[e2 r2]| |] eqn:E; simpl in H;
    try discriminate.
  rewrite (skipCommand_mono f r1 _ E f') by lia. simpl.
  destruct e2; [exact H|]. apply IH; [exact H|lia].
Qed.

Lemma ReadByte_deterministic f1 f2 r v1 v2 :
  ReadByte f1 r = Ret v1 -> ReadByte f2 r = Ret v2 -> v1 = v2.
Proof.
  intros H1 H2.
  apply (ReadByte_mono _ _ _) with (f' := Nat.max f1 f2) in H1; [|lia].
  apply (ReadByte_mono _ _ _) with (f' := Nat.max f1 f2) in H2; [|lia].
  congruence.
Qed.

Lemma ReadUntil_loop_mono : forall f data delim b n r v,
  ReadUntil_loop f data delim b n r = Ret v ->
  forall f', (f <= f')%nat -> ReadUntil_loop f' data delim b n r = Ret v.
Proof.
  induction f as [|f IH]; intros data delim b n r v; simpl; [discriminate|].
  intros H f' Hf. destruct f' as [|f']; [lia|]. simpl.
  destruct (b =? delim); [exact H|].
  destruct (ReadByte f r) as [[[b' e] r1]| |] eqn:E; simpl in H;
    try discriminate.
  rewrite (ReadByte_mono f r _ E f') by lia. simpl.
  destruct e; [exact H|]. apply IH; [exact H|lia].
Qed.

(* ----------------------------------------------------------------- *)
(** ** [reads] *)

Lemma reads_snoc : forall r l r1, reads r l r1 ->
  forall fuel b r2, ReadByte fuel r1 = Ret (b, None, r2) ->
  reads r (l ++ [b]) r2.
Proof.
  induction 1 as [r|fuel0 r b0 r1 l r2 H0 _ IH]; intros fuel b r3 H; simpl.
  - eapply reads_cons; [exact H|constructor].
  - eapply reads_cons; [exact H0|]. eapply IH; exact H.
Qed.

Lemma reads_app : forall r l1 r1, reads r l1 r1 ->
  forall l2 r2, reads r1 l2 r2 -> reads r (l1 ++ l2) r2.
Proof.
  induction 1 as [r|fuel0 r b0 r1 l r2 H0 _ IH]; intros l2 r3 H; simpl.
  - exact H.
  - eapply reads_cons; [exact H0|]. apply IH; exact H.
Qed.

Lemma reads_deterministic : forall r l r1, reads r l r1 ->
  forall r2, reads r l r2 -> r1 = r2.
Proof.
  induction 1 as [r|fuel0 r b0 r1 l r2 H0 _ IH]; intros r3 H;
    inversion H; subst.
  - reflexivity.
  - apply IH.
    match goal with
    | H1 : ReadByte _ r = Ret (b0, None, ?x) |- _ =>
        assert (E : (b0, @None error, r1) = (b0, None, x))
          by (eapply ReadByte_deterministic; eassumption)
    end.
    inversion E; subst. assumption.
Qed.

Lemma reads_pending : forall r l r1, reads r l r1 ->
  (pending r1 + length l <= pending r)%nat /\ rerr r1 = rerr r.
Proof.
  induction 1 as [r|fuel0 r b0 r1 l r2 H0 _ IH]; simpl; [split; [lia|auto]|].
  assert (P : (pending r1 < pending r)%nat /\ rerr r1 = rerr r).
  { destruct (ReadByte_returns (S (pending r)) r) as (b & e & r' & H & _ & D & R);
      [lia|].
    assert (E : (b, e, r') = (b0, None, r1))
      by (eapply ReadByte_deterministic; eassumption).
    inversion E; subst. split; auto. }
  destruct IH, P. split; [lia|congruence].
Qed.

(* ----------------------------------------------------------------- *)
(** ** [ReadUntil] *)

Lemma ReadUntil_loop_spec : forall fuel data delim b n r n' err data' r',
  ReadUntil_loop fuel data delim b n r = Ret (n', err, data', r') ->
  if b =? delim
  then n' = n /\ err = None /\ data' = data /\ r' = r
  else exists l, appended data delim n r n' err data' r' l.
Proof.
  induction fuel as [|fuel IH]; intros data delim b n r n' err data' r';
    simpl; [discriminate|].
  destruct (b =? delim) eqn:Eb.
  { intros H; inversion H; auto. }
  destruct (ReadByte fuel r) as [[[b1 e1] r1]| |] eqn:E1; simpl;
    try discriminate.
  destruct e1 as [e|].
  - intros H; inversion H; subst. exists []. unfold appended.
    rewrite app_nil_r. unfold len; simpl. split; [auto|]. split; [lia|].
    split; [tauto|]. exists r. split; [constructor|]. now exists fuel, b1.
  - intros H. apply IH in H. destruct (b1 =? delim) eqn:E2.
    + destruct H as (-> & -> & -> & ->). apply Z.eqb_eq in E2; subst b1.
      exists [delim]. unfold appended. unfold len; simpl.
      split; [auto|]. split; [lia|]. exists []. split; [auto|].
      split; [tauto|]. eapply reads_cons; [exact E1|constructor].
    + destruct H as (l & D & N & H). exists (b1 :: l). unfold appended.
      apply Z.eqb_neq in E2.
      split; [rewrite D, <- app_assoc; reflexivity|].
      split; [unfold len in *; simpl length; lia|].
      destruct err as [e|].
      * destruct H as (Hn & r2 & Hr & Hf). split.
        { simpl. intros [?|?]; [congruence|tauto]. }
        exists r2. split; [|exact Hf]. eapply reads_cons; eassumption.
      * destruct H as (p & -> & Hn & Hr). exists (b1 :: p).
        split; [reflexivity|]. split.
        { simpl. intros [?|?]; [congruence|tauto]. }
        eapply reads_cons; eassumption.
Qed.

Lemma ReadUntil_loop_returns : forall fuel data delim b n r,
  (S (pending r) < fuel)%nat ->
  exists n' err data' r',
    ReadUntil_loop fuel data delim b n r = Ret (n', err, data', r')
    /\ (pending r' <= pending r)%nat /\ rerr r' = rerr r
    /\ (b <> delim -> err = None -> (pending r' < pending r)%nat).
Proof.
  induction fuel as [|fuel IH]; intros data delim b n r Hf; [lia|]. simpl.
  destruct (b =? delim) eqn:Eb.
  { apply Z.eqb_eq in Eb. do 4 eexists. split; [reflexivity|].
    split; [lia|]. split; [auto|]. congruence. }
  destruct (ReadByte_returns fuel r) as (b1 & e1 & r1 & -> & L1 & D1 & R1);
    [lia|].
  simpl. destruct e1 as [e|].
  - do 4 eexists. split; [reflexivity|]. split; [lia|].
    split; [auto|]. discriminate.
  - specialize (D1 eq_refl).
    destruct (IH (data ++ [b1]) delim b1 (n + 1) r1)
      as (n' & err & data' & r' & -> & L & R & _); [lia|].
    do 4 eexists. split; [reflexivity|]. split; [lia|].
    split; [congruence|]. intros _ _. lia.
Qed.

(** [ReadUntil] with a zero delimiter returns at once: the loop tests its
    zero-initialised byte variable before it reads anything. *)
Lemma ReadUntil_zero_delimiter fuel data r :
  ReadUntil (S fuel) data 0 r = Ret (0, None, data, r).
Proof. reflexivity. Qed.

(** C5, as the code has it.  For a delimiter other than zero (zero is the
    unset value that [setDefaultParams] replaces) [ReadUntil] returns, and
    it has appended to the slice exactly the bytes [l] that successive
    calls of [ReadByte] returned, the count being their number.  Without an
    error [l] ends with the first delimiter read, which is included, and
    holds no other; with an error [l] holds no delimiter and is everything
    read before [ReadByte] failed.  When the delimiter is the first byte
    read, the count is one and that byte alone is appended. *)
Theorem ReadUntil_appends_through_delimiter
  (fuel : nat) (data : list byte) (delim : byte) (r : Reader) :
  delim <> 0 ->
  (S (pending r) < fuel)%nat ->
  exists n err data' r' l,
    ReadUntil fuel data delim r = Ret (n, err, data', r')
    /\ data' = data ++ l /\ n = len l
    /\ match err with
       | None => exists p, l = p ++ [delim] /\ ~ In delim p /\ reads r l r'
       | Some e => ~ In delim l /\ exists r1, reads r l r1 /\ fails r1 e r'
       end
    /\ (forall f r1, ReadByte f r = Ret (delim, None, r1) ->
        n = 1 /\ err = None /\ data' = data ++ [delim] /\ r' = r1).
Proof.
  intros Hd Hf. unfold ReadUntil.
  destruct (ReadUntil_loop_returns fuel data delim 0 0 r Hf)
    as (n & err & data' & r' & H & _).
  pose proof (ReadUntil_loop_spec _ _ _ _ _ _ _ _ _ _ H) as S.
  assert (E0 : (0 =? delim) = false) by (apply Z.eqb_neq; congruence).
  rewrite E0 in S. destruct S as (l & D & N & S).
  exists n, err, data', r', l. split; [exact H|]. split; [exact D|].
  split; [lia|]. split; [exact S|].
  intros f r1 H1.
  (* the first call inside the loop is the same call *)
  destruct fuel as [|fuel]; [lia|]. cbn [ReadUntil_loop] in H.
  rewrite E0 in H.
  destruct (ReadByte fuel r) as [[[b1 e1] r2]| |] eqn:E1; cbn [bind] in H;
    try discriminate.
  assert (E : (b1, e1, r2) = (delim, None, r1))
    by (eapply ReadByte_deterministic; eassumption).
  inversion E; subst.
  destruct fuel as [|fuel]; cbn [ReadUntil_loop] in H; [discriminate|].
  rewrite Z.eqb_refl in H. inversion H; subst. auto.
Qed.

Lemma ReadUntil_appends_through_delimiter_witness :
  exists n err data' r' l,
    ReadUntil 9 [7] SP (mkReader [104] [(105, [32; 120])] EOF)
      = Ret (n, err, data', r')
    /\ data' = [7] ++ l /\ n = len l
    /\ match err with
       | None =>
           exists p, l = p ++ [SP] /\ ~ In SP p
                     /\ reads (mkReader [104] [(105, [32; 120])] EOF) l r'
       | Some e =>
           ~ In SP l
           /\ exists r1, reads (mkReader [104] [(105, [32; 120])] EOF) l r1
                         /\ fails r1 e r'
       end
    /\ (forall f r1,
          ReadByte f (mkReader [104] [(105, [32; 120])] EOF)
            = Ret (SP, None, r1) ->
          n = 1 /\ err = None /\ data' = [7] ++ [SP] /\ r' = r1).
Proof.
  apply (ReadUntil_appends_through_delimiter 9 [7] SP
           (mkReader [104] [(105, [32; 120])] EOF)).
  - discriminate.
  - vm_compute. lia.
Defined.

(** C5, as stated, fails: the stream starts with the delimiter, and
    [ReadUntil] returns one, not zero, with the delimiter appended. *)
Lemma ReadUntil_first_byte_delimiter_counts :
  ReadUntil 9 [] SP (mkReader [] [(32, [65])] EOF)
    = Ret (1, None, [32], mkReader [65] [] EOF)
  /\ ~ (exists err r',
          ReadUntil 9 [] SP (mkReader [] [(32, [65])] EOF)
          = Ret (0, err, [], r')).
Proof.
  split; [reflexivity|]. intros (err & r' & H). discriminate H.
Qed.

(* ----------------------------------------------------------------- *)
(** ** [findNewLinePos] *)

Lemma findNewLinePos_loop_spec data : forall k,
  let r := findNewLinePos_loop data k (nth k data 0) in
  (r = -1 /\ forall i, (i < k)%nat -> ~ crlf_at data i)
  \/ (exists i, r = Z.of_nat i /\ (i < k)%nat /\ crlf_at data i
                /\ forall j, (i < j < k)%nat -> ~ crlf_at data j).
Proof.
  induction k as [|k IH]; simpl.
  - left. split; [reflexivity|]. intros i Hi. lia.
  - destruct ((nth (S k) data 0 =? LF) && (nth k data 0 =? CR)) eqn:E.
    + right. exists k. apply andb_prop in E. destruct E as [E1 E2].
      apply Z.eqb_eq in E1, E2.
      split; [reflexivity|]. split; [lia|]. split; [split; assumption|].
      intros j Hj. lia.
    + assert (N : ~ crlf_at data k).
      { intros [H1 H2]. rewrite H1, H2 in E. discriminate. }
      destruct IH as [(-> & H)|(i & -> & Hi & Hc & H)].
      * left. split; [reflexivity|]. intros i Hi.
        destruct (Nat.eq_dec i k) as [->|]; [exact N|apply H; lia].
      * right. exists i. split; [reflexivity|]. split; [lia|].
        split; [exact Hc|]. intros j Hj.
        destruct (Nat.eq_dec j k) as [->|]; [exact N|apply H; lia].
Qed.

Lemma crlf_at_bound data i : crlf_at data i -> (S i < length data)%nat.
Proof.
  intros [_ H]. destruct (le_lt_dec (length data) (S i)) as [L|L]; [|exact L].
  rewrite nth_overflow in H by exact L. discriminate.
Qed.

(** [findNewLinePos] finds the last carriage return that is directly
    followed by a newline, and returns the index of the carriage return. *)
Lemma findNewLinePos_spec data :
  (findNewLinePos data = -1 /\ forall i, ~ crlf_at data i)
  \/ (exists i, findNewLinePos data = Z.of_nat i
                /\ crlf_at data i
                /\ forall j, (i < j)%nat -> ~ crlf_at data j).
Proof.
  unfold findNewLinePos.
  pose proof (findNewLinePos_loop_spec data (length data)) as H.
  rewrite nth_overflow in H by lia. simpl in H.
  destruct H as [(-> & H)|(i & -> & Hi & Hc & H)].
  - left. split; [reflexivity|]. intros i Hc.
    apply (H i); [|exact Hc]. apply crlf_at_bound in Hc. lia.
  - right. exists i. split; [reflexivity|]. split; [exact Hc|].
    intros j Hj Hcj. apply (H j); [|exact Hcj].
    apply crlf_at_bound in Hcj. lia.
Qed.

Lemma crlf_at_app data more i : crlf_at data i -> crlf_at (data ++ more) i.
Proof.
  intros H. pose proof (crlf_at_bound _ _ H) as B. destruct H as [H1 H2].
  split; rewrite app_nth1 by lia; assumption.
Qed.

Lemma line_start_bounds data : 0 <= line_start data <= len data.
Proof.
  unfold line_start, len.
  destruct (findNewLinePos_spec data) as [(-> & _)|(i & -> & Hc & _)]; simpl.
  - lia.
  - apply crlf_at_bound in Hc.
    destruct (Z.of_nat i =? -1) eqn:E; [lia|]. lia.
Qed.

Lemma line_start_app data more : line_start data <= line_start (data ++ more).
Proof.
  pose proof (line_start_bounds (data ++ more)) as B.
  unfold line_start in *.
  destruct (findNewLinePos_spec data) as [(-> & _)|(i & -> & Hc & _)];
    cbv zeta.
  - simpl. lia.
  - destruct (Z.of_nat i =? -1) eqn:E; [apply Z.eqb_eq in E; lia|].
    destruct (findNewLinePos_spec (data ++ more))
      as [(_ & H)|(j & -> & _ & H)].
    + exfalso. apply (H i). now apply crlf_at_app.
    + destruct (Z.of_nat j =? -1) eqn:E'; [apply Z.eqb_eq in E'; lia|].
      destruct (le_lt_dec i j) as [L|L]; [lia|].
      exfalso. apply (H i L). now apply crlf_at_app.
Qed.

(* ----------------------------------------------------------------- *)
(** ** The decoder has no index expression that can fail *)

Lemma skipSBSequence_no_panic : forall fuel r, skipSBSequence fuel r <> Panic.
Proof.
  induction fuel as [|fuel IH]; intros r; simpl; [discriminate|].
  destruct (bufio_Discard 1 r) as [[k e] r1]. destruct e; [discriminate|].
  destruct (bufio_Peek 2 r1) as [[p e] r2]. destruct e; [discriminate|].
  destruct (_ && _); [|apply IH].
  destruct (bufio_Discard 2 r2) as [[k3 e3] r3]. discriminate.
Qed.

Lemma skipCommand_no_panic fuel r : skipCommand fuel r <> Panic.
Proof.
  unfold skipCommand.
  destruct (bufio_Peek 1 r) as [[p e] r1]. destruct e; [discriminate|].
  destruct (_ || _).
  - destruct (bufio_Discard 2 r1) as [[k e] r2]. discriminate.
  - destruct (_ =? SB); [apply skipSBSequence_no_panic|discriminate].
Qed.

Lemma ReadByte_no_panic : forall fuel r, ReadByte fuel r <> Panic.
Proof.
  induction fuel as [|fuel IH]; intros r; simpl; [discriminate|].
  destruct (bufio_ReadByte r) as [[b e] r1]. destruct e; [discriminate|].
  destruct (negb (b =? IAC)); [discriminate|].
  pose proof (skipCommand_no_panic fuel r1) as N.
  destruct (skipCommand fuel r1) as [[e2 r2]| |]; cbn [bind];
    [|congruence|discriminate].
  destruct e2; [discriminate|apply IH].
Qed.

Lemma ReadUntil_loop_no_panic : forall fuel data delim b n r,
  ReadUntil_loop fuel data delim b n r <> Panic.
Proof.
  induction fuel as [|fuel IH]; intros data delim b n r; simpl;
    [discriminate|].
  destruct (b =? delim); [discriminate|].
  pose proof (ReadByte_no_panic fuel r) as N.
  destruct (ReadByte fuel r) as [[[b1 e1] r1]| |]; cbn [bind];
    [|congruence|discriminate].
  destruct e1; [discriminate|apply IH].
Qed.

(* ----------------------------------------------------------------- *)
(** ** The scan cursor *)

Lemma ReadUntil_extends fuel data delim r n err data' r' :
  ReadUntil fuel data delim r = Ret (n, err, data', r') ->
  exists l, data' = data ++ l /\ n = len l.
Proof.
  unfold ReadUntil. intros H. apply ReadUntil_loop_spec in H.
  destruct (0 =? delim).
  - destruct H as (-> & _ & -> & _). exists []. now rewrite app_nil_r.
  - destruct H as (l & D & N & _). exists l. split; [exact D|lia].
Qed.

Lemma len_app {A : Type} (l m : list A) : len (l ++ m) = len l + len m.
Proof. unfold len. rewrite length_app. lia. Qed.

Lemma advance_ok c l :
  cursor_ok c ->
  let c' := advance c (len l) (output c ++ l) in
  cursor_ok c' /\ linePos c <= linePos c' /\ delimPos c <= delimPos c'
  /\ output c' = output c ++ l.
Proof.
  intros (H0 & H1 & H2 & H3). cbv zeta.
  pose proof (line_start_app (output c) l) as M.
  pose proof (line_start_bounds (output c ++ l)) as B.
  assert (L : linePos (advance c (len l) (output c ++ l))
              = line_start (output c ++ l)).
  { unfold advance, line_start in *. cbn [linePos]. cbv zeta in *.
    destruct (findNewLinePos (output c ++ l) =? -1); [lia|reflexivity]. }
  assert (D : delimPos (advance c (len l) (output c ++ l))
              = len (output c ++ l)).
  { unfold advance. cbn [delimPos]. rewrite len_app. lia. }
  assert (O : output (advance c (len l) (output c ++ l)) = output c ++ l)
    by reflexivity.
  unfold cursor_ok. rewrite L, D, O.
  assert (0 <= len l) by (unfold len; lia).
  rewrite len_app in *. repeat split; try lia.
Qed.

Lemma slice_in_range data lo hi :
  0 <= lo -> lo <= hi -> hi <= len data ->
  slice data lo hi
  = Some (firstn (Z.to_nat (hi - lo)) (skipn (Z.to_nat lo) data)).
Proof.
  intros H1 H2 H3. unfold slice.
  apply Z.leb_le in H1, H2, H3. now rewrite H1, H2, H3.
Qed.

Lemma slice_to_end data lo :
  0 <= lo -> lo <= len data ->
  slice data lo (len data) = Some (skipn (Z.to_nat lo) data).
Proof.
  intros H1 H2. rewrite slice_in_range by lia. f_equal.
  apply firstn_all2. rewrite length_skipn. unfold len in *. lia.
Qed.

(** One round, from a cursor that satisfies the invariant. *)
Lemma ReadUntilPrompt_round_spec fuel process c tc :
  cursor_ok c ->
  ReadUntilPrompt_round fuel process c tc <> Panic
  /\ forall c' chunk stop tc',
       ReadUntilPrompt_round fuel process c tc
         = Ret (Called c' chunk stop tc') ->
       cursor_ok c'
       /\ linePos c <= linePos c' /\ delimPos c <= delimPos c'
       /\ (exists l, output c' = output c ++ l)
       /\ slice (output c') (linePos c') (delimPos c') = Some chunk
       /\ chunk = fragment (output c')
       /\ exists tc1, process chunk tc1 = (stop, tc').
Proof.
  intros Hc. unfold ReadUntilPrompt_round.
  pose proof (ReadUntil_loop_no_panic fuel (output c) (Delimiter tc) 0 0
                (reader tc)) as NP.
  fold (ReadUntil fuel (output c) (Delimiter tc) (reader tc)) in NP.
  destruct (ReadUntil fuel (output c) (Delimiter tc) (reader tc))
    as [[[[n err] out] r1]| |] eqn:E; cbn [bind];
    [|congruence|split; discriminate].
  destruct err as [e|]; [split; discriminate|].
  destruct (ReadUntil_extends _ _ _ _ _ _ _ _ E) as (l & -> & ->).
  destruct (advance_ok c l Hc) as (Hc' & M1 & M2 & O).
  set (c1 := advance c (len l) (output c ++ l)) in *.
  assert (S : slice (output c1) (linePos c1) (delimPos c1)
              = Some (fragment (output c1))).
  { destruct Hc' as (A0 & A1 & A2 & A3). rewrite A2.
    rewrite slice_to_end by lia. unfold fragment. now rewrite <- A3. }
  rewrite S.
  destruct (process (fragment (output c1)) (set_reader tc r1))
    as [stop tc2] eqn:P.
  split; [discriminate|].
  intros c' chunk stop' tc' H. inversion H; subst c' chunk stop' tc'.
  repeat split; try assumption; try apply Hc'.
  - exists l. exact O.
  - exists (set_reader tc r1). exact P.
Qed.

Lemma visited_cursor_ok process tc0 c tc :
  visited process tc0 c tc -> cursor_ok c.
Proof.
  induction 1 as [|fuel c tc c' chunk tc' _ IH H].
  - unfold cursor_ok, cursor0, line_start, len; simpl. lia.
  - destruct (ReadUntilPrompt_round_spec fuel process c tc IH) as [_ S].
    now destruct (S _ _ _ _ H).
Qed.

(** A run of [ReadUntilPrompt] goes through visited loop heads only, and
    its result comes from the round that ended it. *)
Lemma ReadUntilPrompt_loop_ends process tc0 : forall fuel c tc out err tc',
  visited process tc0 c tc ->
  ReadUntilPrompt_loop fuel process c tc = Ret (out, err, tc') ->
  exists f c1 tc1,
    visited process tc0 c1 tc1
    /\ match err with
       | None => exists c' chunk,
           ReadUntilPrompt_round f process c1 tc1
             = Ret (Called c' chunk true tc') /\ out = output c'
       | Some e =>
           ReadUntilPrompt_round f process c1 tc1 = Ret (Failed out e tc')
       end.
Proof.
  induction fuel as [|fuel IH]; intros c tc out err tc' V; simpl;
    [discriminate|].
  destruct (ReadUntilPrompt_round fuel process c tc) as [rd| |] eqn:E;
    cbn [bind]; try discriminate.
  destruct rd as [out1 e1 tc1|c1 chunk stop tc1].
  - intros H; inversion H; subst. exists fuel, c, tc. auto.
  - destruct stop.
    + intros H; inversion H; subst. exists fuel, c, tc. split; [exact V|].
      exists c1, chunk. auto.
    + apply IH. eapply visited_next; eassumption.
Qed.

(** C9.  At every loop head of a run of [ReadUntilPrompt] the cursor
    satisfies [0 <= linePos <= delimPos = len output]; a round from there
    does not panic, and when it calls the predicate the new cursor
    satisfies the invariant again, neither offset has decreased, the
    accumulator has only grown at its end, and the chunk passed to the
    predicate is [output[linePos:delimPos]]. *)
Theorem scan_cursor_invariant
  (process : predicate) (tc0 : TelnetClient) (c : cursor) (tc : TelnetClient) :
  visited process tc0 c tc ->
  (0 <= linePos c /\ linePos c <= delimPos c /\ delimPos c <= len (output c))
  /\ forall fuel,
       ReadUntilPrompt_round fuel process c tc <> Panic
       /\ forall c' chunk stop tc',
            ReadUntilPrompt_round fuel process c tc
              = Ret (Called c' chunk stop tc') ->
            (0 <= linePos c' /\ linePos c' <= delimPos c'
             /\ delimPos c' <= len (output c'))
            /\ linePos c <= linePos c' /\ delimPos c <= delimPos c'
            /\ (exists l, output c' = output c ++ l)
            /\ slice (output c') (linePos c') (delimPos c') = Some chunk
            /\ (exists tc1, process chunk tc1 = (stop, tc')).
Proof.
  intros V. pose proof (visited_cursor_ok _ _ _ _ V) as Hc. split.
  - destruct Hc as (A0 & A1 & A2 & _). lia.
  - intros fuel.
    destruct (ReadUntilPrompt_round_spec fuel process c tc Hc) as [NP S].
    split; [exact NP|]. intros c' chunk stop tc' H.
    destruct (S _ _ _ _ H) as ((A0 & A1 & A2 & _) & M1 & M2 & X & Sl & _ & P).
    repeat split; try assumption; lia.
Qed.

Lemma scan_cursor_invariant_witness :
  visited banner_found scan_start scan_cursor scan_client
  /\ (0 <= linePos scan_cursor /\ linePos scan_cursor <= delimPos scan_cursor
      /\ delimPos scan_cursor <= len (output scan_cursor)).
Proof.
  assert (V : visited banner_found scan_start scan_cursor scan_client).
  { apply (visited_next banner_found scan_start 9 cursor0 scan_start
             scan_cursor (bytes_of "ab ") scan_client).
    - apply visited_start.
    - vm_compute. reflexivity. }
  split; [exact V|].
  exact (proj1 (scan_cursor_invariant banner_found scan_start
                  scan_cursor scan_client V)).
Defined.

(* ----------------------------------------------------------------- *)
(** ** The line start *)

(** C1, as the code has it.  The new line start is looked for from the end
    of the whole accumulator, and the mark is a carriage return directly
    followed by a newline (CR at [i], LF at [i + 1]): when there is one,
    [findNewLinePos] returns the index [i] of the last and the line start
    becomes [i + 2]; when there is none it returns -1 and the line start
    keeps its value.  For the accumulator "abc\r\ndef" the chunk handed to
    the predicate is "def". *)
Theorem line_start_follows_last_CRLF :
  (forall (c : cursor) (n : int) (out : list byte),
      (findNewLinePos out = -1 /\ (forall i, ~ crlf_at out i)
       /\ linePos (advance c n out) = linePos c)
      \/ (exists i, findNewLinePos out = Z.of_nat i /\ crlf_at out i
                    /\ (forall j, (i < j)%nat -> ~ crlf_at out j)
                    /\ linePos (advance c n out) = Z.of_nat i + 2))
  /\ (exists tc',
        ReadUntilPrompt 20 echo (one_read_client crlf_buffer)
          = Ret (crlf_buffer, None, tc')
        /\ sent tc' = bytes_of "def").
Proof.
  split.
  - intros c n out. unfold advance; cbn [linePos].
    destruct (findNewLinePos_spec out) as [(E & H)|(i & E & Hc & H)];
      rewrite E.
    + left. auto.
    + right. exists i. split; [reflexivity|]. split; [exact Hc|].
      split; [exact H|].
      destruct (Z.of_nat i =? -1) eqn:X; [apply Z.eqb_eq in X; lia|reflexivity].
  - eexists. split; [vm_compute; reflexivity|reflexivity].
Qed.

(** C1, as stated, fails.  In "abc\n\rdef" the newline at index 3 is
    directly followed by a carriage return, yet no line start is found:
    the line start stays 0 instead of becoming 5, and the chunk handed to
    the predicate is the whole buffer, not "def". *)
Lemma line_start_ignores_LFCR :
  lfcr_at lfcr_buffer 3
  /\ findNewLinePos lfcr_buffer = -1
  /\ linePos (advance cursor0 (len lfcr_buffer) lfcr_buffer) = 0
  /\ (exists tc',
        ReadUntilPrompt 20 echo (one_read_client lfcr_buffer)
          = Ret (lfcr_buffer, None, tc')
        /\ sent tc' = lfcr_buffer)
  /\ lfcr_buffer <> bytes_of "def".
Proof.
  split; [split; reflexivity|]. split; [reflexivity|].
  split; [reflexivity|]. split; [|discriminate].
  eexists. split; [vm_compute; reflexivity|reflexivity].
Qed.

(* ----------------------------------------------------------------- *)
(** ** The login predicate *)

(** C6, as the code has it.  On a fragment that matches the login-prompt
    pattern the predicate writes the login response, and nothing else,
    and answers "go on": the password-prompt and banner patterns are not
    tried, whether they match or not. *)
Theorem login_match_short_circuits (data : list byte) (tc : TelnetClient) :
  0 < len (Find (LoginRe tc) data) ->
  welcome_sign data tc
  = (false, set_sent tc (sent tc ++ Login tc ++ CRLF)).
Proof.
  intros H. unfold welcome_sign, findInputPrompt, Write.
  destruct (len (Find (LoginRe tc) data) =? 0) eqn:E;
    [apply Z.eqb_eq in E; lia|reflexivity].
Qed.

Lemma login_match_short_circuits_witness :
  0 < len (Find (LoginRe login_client) both_prompts)
  /\ welcome_sign both_prompts login_client
     = (false,
        set_sent login_client (sent login_client ++ Login login_client ++ CRLF)).
Proof.
  split; [reflexivity|].
  apply (login_match_short_circuits both_prompts login_client). reflexivity.
Defined.

(** C6, as stated, fails.  The fragment "host login: Password: " matches
    both default patterns; the predicate writes the login response only. *)
Lemma login_and_password_match_writes_once :
  Find (LoginRe login_client) both_prompts = bytes_of "host login:"
  /\ Find (PasswordRe login_client) both_prompts = bytes_of "Password:"
  /\ sent (snd (welcome_sign both_prompts login_client))
     = bytes_of "admin" ++ CRLF
  /\ sent (snd (welcome_sign both_prompts login_client))
     <> bytes_of "admin" ++ CRLF ++ bytes_of "secret" ++ CRLF.
Proof.
  split; [reflexivity|]. split; [reflexivity|].
  split; [reflexivity|]. vm_compute. discriminate.
Qed.

(* ----------------------------------------------------------------- *)
(** ** [Execute] *)

Lemma bufio_Discard_Buffered r :
  bufio_Discard (bufio_Buffered r) r
  = (bufio_Buffered r, None, mkReader [] (conn r) (rerr r)).
Proof.
  unfold bufio_Discard, bufio_Buffered. destruct r as [buf cs e]; simpl.
  destruct buf as [|b buf]; [reflexivity|].
  cbn [length Nat.eqb]. rewrite Nat.leb_refl.
  change (S (length buf)) with (length (b :: buf)).
  now rewrite skipn_all.
Qed.

Lemma Execute_unfold fuel name args tc :
  Execute fuel name args tc = ReadUntilBanner fuel (submitted name args tc).
Proof.
  transitivity (do (stdout, err, tc3) <-
                  ReadUntilBanner fuel (submitted name args tc);
                Ret (stdout, err, tc3)).
  { unfold Execute. rewrite bufio_Discard_Buffered. reflexivity. }
  destruct (ReadUntilBanner fuel (submitted name args tc))
    as [[[out err] tc']| |]; reflexivity.
Qed.

(** C8.  [Execute] drops exactly the bytes that are buffered and unread
    (what has not yet arrived stays), sends the command name, a space,
    the arguments joined by spaces, and "\r\n", and then is
    [ReadUntilBanner] on the client so prepared. *)
Theorem Execute_submits_then_reads
  (fuel : nat) (name : list byte) (args : list (list byte))
  (tc : TelnetClient) :
  Execute fuel name args tc = ReadUntilBanner fuel (submitted name args tc)
  /\ buffered (reader (submitted name args tc)) = []
  /\ conn (reader (submitted name args tc)) = conn (reader tc)
  /\ sent (submitted name args tc)
     = sent tc ++ name ++ [SP] ++ Join args [SP] ++ [CR; LF].
Proof.
  split; [apply Execute_unfold|repeat split].
Qed.

(* ----------------------------------------------------------------- *)
(** ** Runs of [ReadUntilPrompt] with a predicate that only looks *)

Lemma ReadUntil_reads fuel data delim r n err data' r' :
  ReadUntil fuel data delim r = Ret (n, err, data', r') ->
  exists l, data' = data ++ l /\ n = len l
    /\ ((delim = 0 /\ l = [] /\ err = None /\ r' = r)
        \/ (delim <> 0
            /\ match err with
               | None =>
                   exists p, l = p ++ [delim] /\ ~ In delim p /\ reads r l r'
               | Some e =>
                   ~ In delim l /\ exists r1, reads r l r1 /\ fails r1 e r'
               end)).
Proof.
  unfold ReadUntil. intros H. apply ReadUntil_loop_spec in H.
  destruct (0 =? delim) eqn:E.
  - destruct H as (-> & -> & -> & ->). exists []. rewrite app_nil_r.
    apply Z.eqb_eq in E. split; [reflexivity|]. split; [reflexivity|].
    left. auto.
  - destruct H as (l & D & N & H). exists l. apply Z.eqb_neq in E.
    split; [exact D|]. split; [lia|]. right. split; [congruence|exact H].
Qed.

Lemma delimiter_before_tail (d : byte) : forall p x l q,
  x ++ l = p ++ d :: q -> ~ In d l ->
  exists q', x = p ++ d :: q' /\ q = q' ++ l.
Proof.
  induction p as [|a p IH]; intros x l q E N; destruct x as [|b x];
    simpl in E.
  - exfalso. apply N. rewrite E. now left.
  - inversion E; subst. exists x. auto.
  - exfalso. apply N. rewrite E. right. apply in_elt.
  - inversion E; subst. destruct (IH x l q H1 N) as (q' & -> & ->).
    exists q'. auto.
Qed.

Lemma delimiter_before_last (d : byte) p x p0 q :
  x ++ p0 ++ [d] = p ++ d :: q -> ~ In d p0 -> q <> [] ->
  exists q', x = p ++ d :: q'.
Proof.
  intros E N Q. destruct (exists_last Q) as (q1 & z & ->).
  change (p ++ d :: q1 ++ [z]) with (p ++ (d :: q1) ++ [z]) in E.
  rewrite !app_assoc in E. apply app_inj_tail in E. destruct E as [E _].
  destruct (delimiter_before_tail d p x p0 q1 E N) as (q' & -> & _).
  now exists q'.
Qed.

Section PureRun.

Variable pred : list byte -> bool.
Variable process : predicate.
Variable tc0 : TelnetClient.

(** On the clients of the run, which differ from [tc0] in the reader
    only, the predicate answers [pred] and changes nothing. *)
Hypothesis process_pure : forall chunk r,
  process chunk (set_reader tc0 r) = (pred chunk, set_reader tc0 r).

Hypothesis delimiter_set : Delimiter tc0 <> 0.

Lemma pure_round fuel c r rd :
  cursor_ok c ->
  reads (reader tc0) (output c) r ->
  all_rejected pred (Delimiter tc0) (output c) ->
  ReadUntilPrompt_round fuel process c (set_reader tc0 r) = Ret rd ->
  match rd with
  | Failed out e tc' =>
      exists r1 r', tc' = set_reader tc0 r'
        /\ reads (reader tc0) out r1 /\ fails r1 e r'
        /\ all_rejected pred (Delimiter tc0) out
  | Called c' chunk stop tc' =>
      exists r', tc' = set_reader tc0 r'
        /\ cursor_ok c'
        /\ reads (reader tc0) (output c') r'
        /\ (pending r' < pending r)%nat
        /\ stop = pred (fragment (output c'))
        /\ (exists p, output c' = p ++ [Delimiter tc0])
        /\ forall p q, output c' = p ++ Delimiter tc0 :: q -> q <> [] ->
                       pred (fragment (p ++ [Delimiter tc0])) = false
  end.
Proof.
  intros Hc Hr Hrej. unfold ReadUntilPrompt_round.
  change (Delimiter (set_reader tc0 r)) with (Delimiter tc0).
  change (reader (set_reader tc0 r)) with r.
  destruct (ReadUntil fuel (output c) (Delimiter tc0) r)
    as [[[[n err] out] r1]| |] eqn:E; cbn [bind]; try discriminate.
  destruct (ReadUntil_reads _ _ _ _ _ _ _ _ E)
    as (l & -> & -> & [(Z0 & _)|(_ & Hl)]); [contradiction|].
  destruct err as [e|].
  - intros H; inversion H; subst rd.
    destruct Hl as (Nl & r2 & R2 & F2).
    exists r2, r1. split; [reflexivity|].
    split; [eapply reads_app; eassumption|]. split; [exact F2|].
    intros p q Epq.
    destruct (delimiter_before_tail _ _ _ _ _ Epq Nl) as (q' & Eq & _).
    eapply Hrej. exact Eq.
  - destruct Hl as (p0 & -> & Np & R1).
    destruct (advance_ok c (p0 ++ [Delimiter tc0]) Hc) as (Hc' & _ & _ & O).
    set (c1 := advance c (len (p0 ++ [Delimiter tc0]))
                 (output c ++ p0 ++ [Delimiter tc0])) in *.
    assert (Sl : slice (output c1) (linePos c1) (delimPos c1)
                 = Some (fragment (output c1))).
    { destruct Hc' as (A0 & A1 & A2 & A3). rewrite A2.
      rewrite slice_to_end by lia. unfold fragment. now rewrite <- A3. }
    rewrite Sl.
    change (set_reader (set_reader tc0 r) r1) with (set_reader tc0 r1).
    rewrite process_pure.
    intros H; inversion H; subst rd.
    exists r1. split; [reflexivity|]. split; [exact Hc'|].
    split; [rewrite O; eapply reads_app; eassumption|].
    split.
    { apply reads_pending in R1. rewrite length_app in R1.
      simpl in R1. lia. }
    split; [reflexivity|]. split.
    { exists (output c ++ p0). rewrite O, <- app_assoc. reflexivity. }
    intros p q Epq Q. rewrite O in Epq.
    destruct (delimiter_before_last _ _ _ _ _ Epq Np Q) as (q' & Eq).
    eapply Hrej. exact Eq.
Qed.

Lemma pure_loop : forall fuel c r out err tc',
  cursor_ok c ->
  reads (reader tc0) (output c) r ->
  all_rejected pred (Delimiter tc0) (output c) ->
  ReadUntilPrompt_loop fuel process c (set_reader tc0 r)
    = Ret (out, err, tc') ->
  exists r', tc' = set_reader tc0 r'
    /\ match err with
       | None =>
           reads (reader tc0) out r'
           /\ stops_at pred (Delimiter tc0) out
       | Some e =>
           exists r1, reads (reader tc0) out r1 /\ fails r1 e r'
                      /\ all_rejected pred (Delimiter tc0) out
       end.
Proof.
  induction fuel as [|fuel IH]; intros c r out err tc' Hc Hr Hrej;
    cbn [ReadUntilPrompt_loop]; [discriminate|].
  destruct (ReadUntilPrompt_round fuel process c (set_reader tc0 r))
    as [rd| |] eqn:E; cbn [bind]; try discriminate.
  pose proof (pure_round _ _ _ _ Hc Hr Hrej E) as P.
  destruct rd as [out1 e1 tc1|c1 chunk stop tc1].
  - intros H; inversion H; subst.
    destruct P as (r1 & r' & -> & R & F & A).
    exists r'. split; [reflexivity|]. exists r1. auto.
  - destruct P as (r' & -> & Hc1 & R1 & _ & -> & Hp & Hq).
    destruct (pred (fragment (output c1))) eqn:Ep.
    + intros H; inversion H; subst.
      exists r'. split; [reflexivity|]. split; [exact R1|].
      split; [exact Ep|]. split; assumption.
    + apply IH; try assumption.
      intros p q Epq. destruct q as [|z q].
      * rewrite Epq in Ep. exact Ep.
      * apply (Hq p (z :: q) Epq). discriminate.
Qed.

Lemma pure_loop_returns : forall fuel c r,
  cursor_ok c ->
  reads (reader tc0) (output c) r ->
  all_rejected pred (Delimiter tc0) (output c) ->
  (S (S (pending r)) < fuel)%nat ->
  exists out err tc',
    ReadUntilPrompt_loop fuel process c (set_reader tc0 r)
      = Ret (out, err, tc').
Proof.
  induction fuel as [|fuel IH]; intros c r Hc Hr Hrej Hf; [lia|].
  cbn [ReadUntilPrompt_loop].
  destruct (ReadUntilPrompt_round_spec fuel process c (set_reader tc0 r) Hc)
    as [NP _].
  destruct (ReadUntilPrompt_round fuel process c (set_reader tc0 r))
    as [rd| |] eqn:E; [|congruence|].
  - cbn [bind]. pose proof (pure_round _ _ _ _ Hc Hr Hrej E) as P.
    destruct rd as [out1 e1 tc1|c1 chunk stop tc1]; [eauto|].
    destruct P as (r' & -> & Hc1 & R1 & L1 & -> & Hp & Hq).
    destruct (pred (fragment (output c1))) eqn:Ep; [eauto|].
    apply IH; try assumption; [|lia].
    intros p q Epq. destruct q as [|z q].
    + rewrite Epq in Ep. exact Ep.
    + apply (Hq p (z :: q) Epq). discriminate.
  - exfalso. unfold ReadUntilPrompt_round in E.
    change (Delimiter (set_reader tc0 r)) with (Delimiter tc0) in E.
    change (reader (set_reader tc0 r)) with r in E.
    destruct (ReadUntil_loop_returns fuel (output c) (Delimiter tc0) 0 0 r)
      as (n' & err & data' & r' & H & _); [lia|].
    unfold ReadUntil in E. rewrite H in E. cbn [bind] in E.
    destruct err; [discriminate|].
    destruct (slice _ _ _); [|discriminate].
    destruct (process _ _); discriminate.
Qed.

End PureRun.

Lemma set_reader_same tc : set_reader tc (reader tc) = tc.
Proof. now destruct tc. Qed.

Lemma all_rejected_nil pred delim : all_rejected pred delim [].
Proof. intros p q E. destruct p; discriminate. Qed.

Lemma cursor0_ok : cursor_ok cursor0.
Proof. unfold cursor_ok, cursor0, line_start, len; simpl. lia. Qed.

Lemma banner_found_pure tc chunk r :
  banner_found chunk (set_reader tc r)
  = (has_match (BannerRe tc) chunk, set_reader tc r).
Proof. reflexivity. Qed.

(* ----------------------------------------------------------------- *)
(** ** [ReadUntilBanner] and [Execute] *)

Lemma ReadUntilPrompt_start_ok process tc :
  visited process tc cursor0 tc.
Proof. constructor. Qed.

Lemma ReadUntilBanner_spec fuel tc out err tc' :
  Delimiter tc <> 0 ->
  ReadUntilBanner fuel tc = Ret (out, err, tc') ->
  exists raw r',
    tc' = set_reader tc r'
    /\ out = Trim (ReplaceAll (BannerRe tc) raw []) [SP]
    /\ match err with
       | None =>
           reads (reader tc) raw r'
           /\ stops_at (has_match (BannerRe tc)) (Delimiter tc) raw
       | Some e =>
           exists r1, reads (reader tc) raw r1 /\ fails r1 e r'
             /\ all_rejected (has_match (BannerRe tc)) (Delimiter tc) raw
       end.
Proof.
  intros Hd. unfold ReadUntilBanner, ReadUntilPrompt.
  destruct (ReadUntilPrompt_loop fuel banner_found cursor0 tc)
    as [[[raw err1] tc1]| |] eqn:E; cbn [bind]; try discriminate.
  intros H; inversion H; subst out err tc1.
  rewrite <- (set_reader_same tc) in E at 1.
  apply (pure_loop (has_match (BannerRe tc)) banner_found tc
           (banner_found_pure tc) Hd) in E.
  - destruct E as (r' & -> & E). exists raw, r'.
    split; [reflexivity|]. split; [reflexivity|exact E].
  - apply cursor0_ok.
  - constructor.
  - apply all_rejected_nil.
Qed.

Lemma ReadUntilBanner_returns fuel tc :
  Delimiter tc <> 0 ->
  (S (S (pending (reader tc))) < fuel)%nat ->
  exists out err tc', ReadUntilBanner fuel tc = Ret (out, err, tc').
Proof.
  intros Hd Hf. unfold ReadUntilBanner, ReadUntilPrompt.
  destruct (pure_loop_returns (has_match (BannerRe tc)) banner_found tc
              (banner_found_pure tc) Hd fuel cursor0 (reader tc))
    as (out & err & tc' & H).
  - apply cursor0_ok.
  - constructor.
  - apply all_rejected_nil.
  - exact Hf.
  - rewrite set_reader_same in H. rewrite H. cbn [bind]. eauto.
Qed.

(** With a zero delimiter no read is made, so none fails. *)
Lemma zero_delimiter_never_fails tc0 :
  Delimiter tc0 = 0 ->
  forall fuel c r out e tc',
    ReadUntilPrompt_loop fuel banner_found c (set_reader tc0 r)
    <> Ret (out, Some e, tc').
Proof.
  intros Hd. induction fuel as [|fuel IH]; intros c r out e tc';
    cbn [ReadUntilPrompt_loop]; [discriminate|].
  unfold ReadUntilPrompt_round.
  change (Delimiter (set_reader tc0 r)) with (Delimiter tc0).
  change (reader (set_reader tc0 r)) with r.
  rewrite Hd. destruct fuel as [|fuel]; [discriminate|].
  rewrite ReadUntil_zero_delimiter. cbn [bind].
  destruct (slice _ _ _) as [chunk|]; [|discriminate].
  change (set_reader (set_reader tc0 r) r) with (set_reader tc0 r).
  rewrite banner_found_pure. cbn [bind].
  destruct (has_match _ _); [discriminate|]. apply IH.
Qed.

Lemma ReadUntilPrompt_failure fuel process tc out e tc' :
  ReadUntilPrompt fuel process tc = Ret (out, Some e, tc') ->
  exists c1 tc1 l r1,
    visited process tc c1 tc1
    /\ out = output c1 ++ l
    /\ reads (reader tc1) l r1 /\ fails r1 e (reader tc').
Proof.
  unfold ReadUntilPrompt. intros H.
  destruct (ReadUntilPrompt_loop_ends process tc fuel cursor0 tc out
              (Some e) tc' (visited_start process tc) H)
    as (f & c1 & tc1 & V & R).
  exists c1, tc1. unfold ReadUntilPrompt_round in R.
  destruct (ReadUntil f (output c1) (Delimiter tc1) (reader tc1))
    as [[[[n err] out1] r1]| |] eqn:E; cbn [bind] in R; try discriminate.
  destruct err as [e1|].
  - inversion R; subst out1 e1 tc'.
    destruct (ReadUntil_reads _ _ _ _ _ _ _ _ E)
      as (l & -> & _ & [(_ & _ & X & _)|(_ & _ & r2 & R2 & F2)]);
      [discriminate|].
    exists l, r2. auto.
  - destruct (slice _ _ _); [|discriminate].
    destruct (process _ _); discriminate.
Qed.

(** C4, as the code has it.  A read operation that fails returns, next to
    the error, the output it had accumulated: [ReadUntilPrompt] returns
    the accumulator with the bytes read in the failing round appended,
    and [ReadUntilBanner] and [Execute] return everything that was read
    before the failure, with the banner matches removed and the spaces at
    both ends trimmed. *)
Theorem failed_read_returns_partial_output :
  (forall fuel process tc out e tc',
      ReadUntilPrompt fuel process tc = Ret (out, Some e, tc') ->
      exists c1 tc1 l r1,
        visited process tc c1 tc1
        /\ out = output c1 ++ l
        /\ reads (reader tc1) l r1 /\ fails r1 e (reader tc'))
  /\ (forall fuel tc out e tc',
        ReadUntilBanner fuel tc = Ret (out, Some e, tc') ->
        exists raw r1,
          reads (reader tc) raw r1 /\ fails r1 e (reader tc')
          /\ out = Trim (ReplaceAll (BannerRe tc) raw []) [SP])
  /\ (forall fuel name args tc out e tc',
        Execute fuel name args tc = Ret (out, Some e, tc') ->
        exists raw r1,
          reads (reader (submitted name args tc)) raw r1
          /\ fails r1 e (reader tc')
          /\ out = Trim (ReplaceAll (BannerRe tc) raw []) [SP]).
Proof.
  assert (B : forall fuel tc out e tc',
             ReadUntilBanner fuel tc = Ret (out, Some e, tc') ->
             exists raw r1,
               reads (reader tc) raw r1 /\ fails r1 e (reader tc')
               /\ out = Trim (ReplaceAll (BannerRe tc) raw []) [SP]).
  { intros fuel tc out e tc' H.
    destruct (Z.eq_dec (Delimiter tc) 0) as [Z0|Hd].
    - exfalso. unfold ReadUntilBanner, ReadUntilPrompt in H.
      destruct (ReadUntilPrompt_loop fuel banner_found cursor0 tc)
        as [[[raw err1] tc1]| |] eqn:E; cbn [bind] in H; try discriminate.
      inversion H; subst. rewrite <- (set_reader_same tc) in E at 1.
      exact (zero_delimiter_never_fails tc Z0 _ _ _ _ _ _ E).
    - destruct (ReadUntilBanner_spec fuel tc out (Some e) tc' Hd H)
        as (raw & r' & -> & -> & r1 & R & F & _).
      exists raw, r1. auto. }
  split; [exact ReadUntilPrompt_failure|]. split; [exact B|].
  intros fuel name args tc out e tc' H.
  rewrite Execute_unfold in H.
  exact (B _ _ _ _ _ H).
Qed.

Lemma failed_read_returns_partial_output_witness :
  ReadUntilBanner 20 cut_off_client = Ret (bytes_of "abc", Some EOF, cut_off_after)
  /\ exists raw r1,
       reads (reader cut_off_client) raw r1 /\ fails r1 EOF (reader cut_off_after)
       /\ bytes_of "abc" = Trim (ReplaceAll (BannerRe cut_off_client) raw []) [SP].
Proof.
  split; [vm_compute; reflexivity|].
  apply (proj1 (proj2 failed_read_returns_partial_output)
           20%nat cut_off_client (bytes_of "abc") EOF cut_off_after).
  vm_compute. reflexivity.
Defined.

(** C4, as stated, fails.  The connection delivers "abc" and ends before
    any delimiter: each of the three operations returns the error and,
    with it, the three bytes read so far. *)
Lemma failed_read_keeps_partial_output :
  ReadUntilPrompt 20 banner_found cut_off_client
    = Ret (bytes_of "abc", Some EOF, cut_off_after)
  /\ ReadUntilBanner 20 cut_off_client
     = Ret (bytes_of "abc", Some EOF, cut_off_after)
  /\ (exists tc', Execute 20 (bytes_of "ls") [] cut_off_client
                  = Ret (bytes_of "abc", Some EOF, tc'))
  /\ bytes_of "abc" <> [].
Proof.
  split; [vm_compute; reflexivity|].
  split; [vm_compute; reflexivity|].
  split; [eexists; vm_compute; reflexivity|discriminate].
Qed.

(** C2, as the code has it.  When [Execute] returns without an error, its
    result is made from [raw], the bytes the decoder delivered after the
    request was sent: [raw] ends with the first delimiter at which the
    fragment (from the line start to that delimiter) holds a match of the
    banner pattern, and the result is [raw] with the matches of the
    banner pattern replaced by nothing and then the space bytes, and only
    those, trimmed at both ends.  With a delimiter set, [Execute] returns
    on every connection.  On receiving
    "\n\rfile1\nfile2\n\ruser@host:~$ ", [Execute("ls", "-l")] writes
    "ls -l\r\n" and returns "\n\rfile1\nfile2\n\r". *)
Theorem Execute_returns_output_up_to_banner :
  (forall fuel name args tc stdout tc',
      Delimiter tc <> 0 ->
      Execute fuel name args tc = Ret (stdout, None, tc') ->
      exists raw,
        reads (reader (submitted name args tc)) raw (reader tc')
        /\ stops_at (has_match (BannerRe tc)) (Delimiter tc) raw
        /\ stdout = Trim (ReplaceAll (BannerRe tc) raw []) [SP])
  /\ (forall fuel name args tc,
        Delimiter tc <> 0 ->
        (S (S (pending (reader (submitted name args tc)))) < fuel)%nat ->
        exists stdout err tc',
          Execute fuel name args tc = Ret (stdout, err, tc'))
  /\ Execute 99 (bytes_of "ls") [bytes_of "-l"] ls_client
     = Ret (ls_stdout, None, ls_after).
Proof.
  split; [|split].
  - intros fuel name args tc stdout tc' Hd H.
    rewrite Execute_unfold in H.
    destruct (ReadUntilBanner_spec fuel (submitted name args tc)
                stdout None tc' Hd H) as (raw & r' & -> & -> & R & S).
    exists raw. auto.
  - intros fuel name args tc Hd Hf. rewrite Execute_unfold.
    now apply ReadUntilBanner_returns.
  - vm_compute. reflexivity.
Qed.

Lemma Execute_returns_output_up_to_banner_witness :
  Delimiter ls_client <> 0
  /\ Execute 99 (bytes_of "ls") [bytes_of "-l"] ls_client
     = Ret (ls_stdout, None, ls_after)
  /\ exists raw,
       reads (reader (submitted (bytes_of "ls") [bytes_of "-l"] ls_client))
             raw (reader ls_after)
       /\ stops_at (has_match (BannerRe ls_client)) (Delimiter ls_client) raw
       /\ ls_stdout = Trim (ReplaceAll (BannerRe ls_client) raw []) [SP].
Proof.
  split; [vm_compute; discriminate|].
  split; [vm_compute; reflexivity|].
  apply (proj1 Execute_returns_output_up_to_banner
           99%nat (bytes_of "ls") [bytes_of "-l"] ls_client
           ls_stdout ls_after).
  - vm_compute; discriminate.
  - vm_compute; reflexivity.
Defined.

(** C2, as stated, fails.  [Execute("ls", "-l")] on that input returns
    "\n\rfile1\nfile2\n\r", which is not "file1\nfile2": trimming removes
    spaces only, and the newline and carriage-return bytes around the
    listing stay. *)
Lemma Execute_keeps_line_breaks :
  Execute 99 (bytes_of "ls") [bytes_of "-l"] ls_client
    = Ret (ls_stdout, None, ls_after)
  /\ sent ls_after = bytes_of "ls -l" ++ [CR; LF]
  /\ ls_stdout <> bytes_of "file1" ++ [LF] ++ bytes_of "file2".
Proof.
  split; [vm_compute; reflexivity|]. split; [reflexivity|].
  vm_compute. discriminate.
Qed.

(* ================================================================= *)
(** * Further properties of the decoder *)

(** The decoder only ever takes bytes from the front of the stream. *)
Lemma bufio_Discard_front n r k e r' :
  bufio_Discard n r = (k, e, r') ->
  rerr r' = rerr r
  /\ (exists pre, unread r = pre ++ unread r')
  /\ (e = None \/ (e = Some (rerr r) /\ unread r' = [])).
Proof.
  intros H. destruct (bufio_Discard_cases n r) as (k0 & e0 & r0 & H0 & R & C).
  rewrite H in H0. inversion H0; subst k0 e0 r0. split; [exact R|].
  destruct C as [(-> & _ & U)|(-> & _ & U)].
  - split; [|auto]. exists (firstn n (unread r)).
    rewrite U. symmetry. apply firstn_skipn.
  - split; [|auto]. exists (unread r). rewrite U. now rewrite app_nil_r.
Qed.

Lemma skipSBSequence_front : forall fuel r e r',
  skipSBSequence fuel r = Ret (e, r') ->
  rerr r' = rerr r
  /\ (exists pre, unread r = pre ++ unread r')
  /\ (e = None \/ (e = Some (rerr r) /\ (pending r' <= 1)%nat)).
Proof.
  unfold pending.
  induction fuel as [|fuel IH]; intros r e r'; simpl; [discriminate|].
  destruct (bufio_Discard 1 r) as [[k1 e1] r1] eqn:D1.
  destruct (bufio_Discard_front _ _ _ _ _ D1) as (R1 & (pre1 & P1) & C1).
  destruct e1 as [e1|].
  { intros H; inversion H; subst e r'.
    destruct C1 as [C1|(C1 & U1)]; [discriminate|].
    inversion C1; subst e1. split; [exact R1|]. split; [eauto|].
    right. rewrite U1. simpl. split; [reflexivity|lia]. }
  destruct (bufio_Peek_cases 2 r1) as (p & e2 & r2 & -> & U2 & R2 & C2).
  destruct e2 as [e2|].
  { intros H; inversion H; subst e r'.
    destruct C2 as [(C2 & _)|(C2 & L2)]; [discriminate|].
    inversion C2; subst e2. split; [congruence|].
    split; [exists pre1; congruence|].
    right. rewrite U2. split; [congruence|lia]. }
  destruct (_ && _).
  - destruct (bufio_Discard 2 r2) as [[k3 e3] r3] eqn:D3.
    destruct (bufio_Discard_front _ _ _ _ _ D3) as (R3 & (pre3 & P3) & C3).
    intros H; inversion H; subst e r'. split; [congruence|]. split.
    + exists (pre1 ++ pre3). rewrite P1, <- U2, P3. now rewrite app_assoc.
    + destruct C3 as [C3|(C3 & U3)]; [auto|]. right. rewrite U3. simpl.
      split; [congruence|lia].
  - intros H. apply IH in H. destruct H as (R & (pre & P) & C).
    split; [congruence|]. split.
    + exists (pre1 ++ pre). rewrite P1, <- U2, P. now rewrite app_assoc.
    + destruct C as [C|(C & L)]; [auto|]. right. split; [congruence|exact L].
Qed.

Lemma skipCommand_front fuel r e r' :
  skipCommand fuel r = Ret (e, r') ->
  rerr r' = rerr r
  /\ (exists pre, unread r = pre ++ unread r')
  /\ (e = None \/ (e = Some (rerr r) /\ (pending r' <= 1)%nat)).
Proof.
  unfold skipCommand, pending.
  destruct (bufio_Peek_cases 1 r) as (p & e1 & r1 & -> & U1 & R1 & C1).
  destruct e1 as [e1|].
  { intros H; inversion H; subst e r'.
    destruct C1 as [(C1 & _)|(C1 & L1)]; [discriminate|].
    inversion C1; subst e1. split; [exact R1|].
    split; [exists []; now rewrite U1|]. right. rewrite U1.
    split; [reflexivity|lia]. }
  destruct (_ || _).
  - destruct (bufio_Discard 2 r1) as [[k2 e2] r2] eqn:D2.
    destruct (bufio_Discard_front _ _ _ _ _ D2) as (R2 & (pre2 & P2) & C2).
    intros H; inversion H; subst e r'. split; [congruence|].
    split; [exists pre2; congruence|].
    destruct C2 as [C2|(C2 & U2)]; [auto|]. right. rewrite U2. simpl.
    split; [congruence|lia].
  - destruct (_ =? SB).
    + intros H. apply skipSBSequence_front in H.
      destruct H as (R & (pre & P) & C). split; [congruence|].
      split; [exists pre; congruence|].
      destruct C as [C|(C & L)]; [auto|]. right. split; [congruence|exact L].
    + intros H; inversion H; subst e r'. split; [exact R1|].
      split; [exists []; now rewrite U1|auto].
Qed.

(** X1.  [ReadByte] takes bytes from the front of the stream only.
    When it returns a byte, that byte stood in the stream right before
    what is left unread, and what was skipped before it is nothing or
    starts with the escape marker.  When it fails, the error is the one
    of the connection, and at most one byte is left unread. *)
Theorem ReadByte_reads_from_the_front : forall fuel r b e r',
  ReadByte fuel r = Ret (b, e, r') ->
  rerr r' = rerr r
  /\ match e with
     | None =>
         exists skipped,
           unread r = skipped ++ b :: unread r'
           /\ (skipped = [] \/ exists t, skipped = IAC :: t)
     | Some e' =>
         e' = rerr r /\ (pending r' <= 1)%nat
         /\ exists pre, unread r = pre ++ unread r'
     end.
Proof.
  induction fuel as [|fuel IH]; intros r b e r'; simpl; [discriminate|].
  destruct (bufio_ReadByte_cases r)
    as [(U & ->)|(b0 & t & r1 & U & -> & U1 & R1)].
  - intros H; inversion H; subst b e r'. split; [reflexivity|].
    split; [reflexivity|]. unfold pending. rewrite U. simpl.
    split; [lia|]. now exists [].
  - destruct (negb (b0 =? IAC)) eqn:Eb.
    + intros H; inversion H; subst b e r'. split; [exact R1|].
      exists []. rewrite U, U1. auto.
    + apply negb_false_iff, Z.eqb_eq in Eb. subst b0.
      destruct (skipCommand fuel r1) as [[e2 r2]| |] eqn:E2; cbn [bind];
        try discriminate.
      destruct (skipCommand_front _ _ _ _ E2) as (R2 & (pre2 & P2) & C2).
      destruct e2 as [e2|].
      * intros H; inversion H; subst b e r'. split; [congruence|].
        destruct C2 as [C2|(C2 & L2)]; [discriminate|].
        inversion C2; subst e2. split; [congruence|]. split; [exact L2|].
        exists (IAC :: pre2). rewrite U, <- U1, P2. reflexivity.
      * intros H. apply IH in H. destruct H as (R & H).
        split; [congruence|]. destruct e as [e'|].
        -- destruct H as (-> & L & pre & P). split; [congruence|].
           split; [exact L|]. exists (IAC :: pre2 ++ pre).
           rewrite U, <- U1, P2, P. simpl. now rewrite app_assoc.
        -- destruct H as (sk & P & _). exists (IAC :: pre2 ++ sk).
           split; [|right; eauto].
           rewrite U, <- U1, P2, P. simpl. now rewrite <- app_assoc.
Qed.

Lemma ReadByte_reads_from_the_front_witness :
  ReadByte 9 sample_reader
    = Ret (104, None, mkReader [255] (conn sample_reader) EOF)
  /\ rerr (mkReader [255] (conn sample_reader) EOF) = rerr sample_reader
  /\ exists skipped,
       unread sample_reader
         = skipped ++ 104 :: unread (mkReader [255] (conn sample_reader) EOF)
       /\ (skipped = [] \/ exists t, skipped = IAC :: t).
Proof.
  split; [reflexivity|].
  apply (ReadByte_reads_from_the_front 9 sample_reader 104 None
           (mkReader [255] (conn sample_reader) EOF)).
  reflexivity.
Defined.

Lemma skipSBSequence_unterminated : forall inner x r fuel,
  no_IAC_SE inner = true ->
  unread r = x :: inner ->
  (length inner < fuel)%nat ->
  exists r', skipSBSequence fuel r = Ret (Some (rerr r), r')
             /\ unread r' = match inner with
                            | [] => []
                            | _ :: _ => [last inner 0]
                            end.
Proof.
  induction inner as [|a inner IH]; intros x r fuel Hok U Hf;
    (destruct fuel as [|fuel]; [simpl in Hf; lia|]);
    cbn [skipSBSequence].
  - on_Discard 1%nat r k e r1 Hr1 Hc1.
    destruct Hc1 as [(-> & _ & U1)|(_ & L & _)];
      [|rewrite U in L; simpl in L; lia].
    rewrite U in U1; simpl in U1.
    on_Peek 2%nat r1 p e r2 Hu2 Hr2 Hc2.
    destruct Hc2 as [(_ & L & _)|(-> & _)];
      [rewrite U1 in L; simpl in L; lia|].
    exists r2. split; [now rewrite Hr1|congruence].
  - on_Discard 1%nat r k e r1 Hr1 Hc1.
    destruct Hc1 as [(-> & _ & U1)|(_ & L & _)];
      [|rewrite U in L; simpl in L; lia].
    rewrite U in U1; simpl in U1.
    on_Peek 2%nat r1 p e r2 Hu2 Hr2 Hc2.
    destruct inner as [|b inner].
    + destruct Hc2 as [(_ & L & _)|(-> & _)];
        [rewrite U1 in L; simpl in L; lia|].
      exists r2. split; [now rewrite Hr1|]. rewrite Hu2, U1. reflexivity.
    + destruct Hc2 as [(-> & _ & ->)|(_ & L)];
        [|rewrite U1 in L; simpl in L; lia].
      rewrite U1. cbn [firstn nth].
      cbn [no_IAC_SE] in Hok. apply andb_prop in Hok.
      destruct Hok as [Hab Hok]. apply negb_true_iff in Hab. rewrite Hab.
      destruct (IH a r2 fuel Hok) as (r' & H & U').
      * congruence.
      * simpl in Hf |- *. lia.
      * exists r'. split; [rewrite H; now rewrite Hr2, Hr1|].
        rewrite U'. reflexivity.
Qed.

(** X2.  A subnegotiation block that never closes: [ReadByte] discards
    the stream up to its last byte and fails with the error of the
    connection.  The last byte of the stream is left unread (none when
    the stream ends right after SB). *)
Theorem ReadByte_unterminated_block (inner : list byte) (fuel : nat)
  (r : Reader) :
  no_IAC_SE inner = true ->
  unread r = IAC :: SB :: inner ->
  (S (length inner) < fuel)%nat ->
  exists r', ReadByte fuel r = Ret (IAC, Some (rerr r), r')
             /\ unread r' = match inner with
                            | [] => []
                            | _ :: _ => [last inner 0]
                            end.
Proof.
  intros Hok U Hf. destruct fuel as [|fuel]; [lia|].
  cbn [ReadByte].
  destruct (bufio_ReadByte_cons r _ _ U) as (r1 & -> & U1 & R1).
  cbn [negb Z.eqb IAC Pos.eqb]. simpl negb. cbv iota.
  unfold skipCommand.
  on_Peek 1%nat r1 p e r2 Hu2 Hr2 Hc2.
  destruct Hc2 as [(-> & _ & ->)|(_ & L)];
    [|rewrite U1 in L; simpl in L; lia].
  rewrite U1. cbn [firstn nth]. simpl orb. cbv iota. simpl Z.eqb. cbv iota.
  destruct (skipSBSequence_unterminated inner SB r2 fuel Hok)
    as (r' & H & U'); [congruence|lia|].
  rewrite H. cbn [bind]. exists r'. split; [|exact U'].
  now rewrite Hr2, R1.
Qed.

Lemma ReadByte_unterminated_block_witness :
  exists r', ReadByte 9 (mkReader [255; 250] [(24, [1; 31])] EOF)
             = Ret (IAC, Some EOF, r')
             /\ unread r' = [31].
Proof.
  apply (ReadByte_unterminated_block [24; 1; 31] 9
           (mkReader [255; 250] [(24, [1; 31])] EOF));
    [reflexivity | reflexivity | simpl; lia].
Defined.

(** X3.  A doubled escape marker is read as a single one: the first is
    dropped and the second starts a control sequence of its own, so
    IAC IAC followed by [s] is read exactly as IAC followed by [s]. *)
Theorem ReadByte_doubled_marker (fuel : nat) (r : Reader) (s : list byte) :
  unread r = IAC :: IAC :: s ->
  exists r1, unread r1 = IAC :: s /\ rerr r1 = rerr r
             /\ ReadByte (S fuel) r = ReadByte fuel r1.
Proof.
  intros U.
  destruct (bufio_ReadByte_cons r _ _ U) as (r1 & H1 & U1 & R1).
  destruct (skipCommand_other fuel r1 IAC s eq_refl) as (r2 & H2 & U2 & R2);
    [discriminate|exact U1|].
  exists r2. split; [exact U2|]. split; [congruence|].
  cbn [ReadByte]. rewrite H1. simpl negb. cbv iota.
  rewrite H2. reflexivity.
Qed.

Lemma ReadByte_doubled_marker_witness :
  exists r1, unread r1 = IAC :: [251; 1; 65] /\ rerr r1 = EOF
             /\ ReadByte 9 (mkReader [255; 255; 251; 1; 65] [] EOF)
                = ReadByte 8 r1.
Proof.
  apply (ReadByte_doubled_marker 8
           (mkReader [255; 255; 251; 1; 65] [] EOF) [251; 1; 65]).
  reflexivity.
Defined.

(** X4.  An escape marker followed by a byte that is none of WILL, WONT,
    DO, DONT, SB and not the marker itself: the marker alone is dropped,
    and the byte after it is returned as payload. *)
Theorem ReadByte_passes_unknown_command_byte
  (fuel : nat) (r : Reader) (c : byte) (rest : list byte) :
  is_negotiation c = false -> c <> SB -> c <> IAC ->
  unread r = IAC :: c :: rest ->
  exists r', ReadByte (S (S fuel)) r = Ret (c, None, r')
             /\ unread r' = rest.
Proof. apply ReadByte_unknown_command. Qed.

Lemma ReadByte_passes_unknown_command_byte_witness :
  exists r', ReadByte 2 (mkReader [] [(255, [241; 65])] EOF)
             = Ret (241, None, r')
             /\ unread r' = [65].
Proof.
  apply (ReadByte_passes_unknown_command_byte 0
           (mkReader [] [(255, [241; 65])] EOF) 241 [65]);
    [reflexivity | discriminate | discriminate | reflexivity].
Defined.

(* ================================================================= *)
(** * Further properties of [ReadUntil] *)

Lemma ReadByte_ok_not_IAC : forall fuel r b r',
  ReadByte fuel r = Ret (b, None, r') -> b <> IAC.
Proof.
  induction fuel as [|fuel IH]; intros r b r'; simpl; [discriminate|].
  destruct (bufio_ReadByte r) as [[b0 e0] r1].
  destruct e0; [discriminate|].
  destruct (negb (b0 =? IAC)) eqn:E.
  - intros H; inversion H; subst.
    now apply negb_true_iff, Z.eqb_neq in E.
  - destruct (skipCommand fuel r1) as [[e2 r2]| |]; simpl; try discriminate.
    destruct e2; [discriminate|]. apply IH.
Qed.

Lemma reads_no_IAC : forall r l r', reads r l r' ->
  Forall (fun b => b <> IAC) l.
Proof.
  induction 1 as [r|fuel r b r1 l r2 H _ IH]; constructor.
  - eapply ReadByte_ok_not_IAC; exact H.
  - exact IH.
Qed.

(** X5.  [ReadUntil] only appends to the slice, the count it returns is
    the number of bytes appended, and no appended byte is the escape
    marker.  So a delimiter of 255 is never found: with it, [ReadUntil]
    never returns without an error. *)
Theorem ReadUntil_appends_no_IAC
  (fuel : nat) (data : list byte) (delim : byte) (r : Reader)
  (n : int) (err : option error) (data' : list byte) (r' : Reader) :
  ReadUntil fuel data delim r = Ret (n, err, data', r') ->
  (exists l, data' = data ++ l /\ n = len l
             /\ Forall (fun b => b <> IAC) l)
  /\ (delim = IAC -> err <> None).
Proof.
  intros H.
  destruct (ReadUntil_reads _ _ _ _ _ _ _ _ H)
    as (l & D & N & [(Z0 & -> & _)|(Hd & C)]).
  - split; [exists []; auto|]. intros E. rewrite E in Z0. discriminate.
  - destruct err as [e|].
    + destruct C as (_ & r1 & R & _). split; [|discriminate].
      exists l. split; [exact D|]. split; [exact N|].
      eapply reads_no_IAC; exact R.
    + destruct C as (p & -> & _ & R).
      pose proof (reads_no_IAC _ _ _ R) as F. split.
      * exists (p ++ [delim]). auto.
      * intros E _. apply Forall_app in F. destruct F as [_ F].
        inversion F; subst. congruence.
Qed.

Lemma ReadUntil_appends_no_IAC_witness :
  ReadUntil 9 [7] IAC (mkReader [104; 255; 251] [(1, [105])] EOF)
    = Ret (2, Some EOF, [7; 104; 105], mkReader [] [] EOF)
  /\ (exists l, [7; 104; 105] = [7] ++ l /\ 2 = len l
                /\ Forall (fun b => b <> IAC) l)
  /\ (IAC = IAC -> Some EOF <> None).
Proof.
  split; [reflexivity|].
  apply (ReadUntil_appends_no_IAC 9 [7] IAC
           (mkReader [104; 255; 251] [(1, [105])] EOF)
           2 (Some EOF) [7; 104; 105] (mkReader [] [] EOF)).
  reflexivity.
Defined.

Lemma ReadUntil_loop_plain (d : byte) (rest : list byte) :
  d <> IAC ->
  forall p fuel data b n r,
    b <> d ->
    unread r = p ++ d :: rest ->
    Forall (fun c => c <> IAC) p -> ~ In d p ->
    (S (length p) < fuel)%nat ->
    exists r', ReadUntil_loop fuel data d b n r
               = Ret (n + len p + 1, None, data ++ p ++ [d], r')
               /\ unread r' = rest /\ rerr r' = rerr r.
Proof.
  intros Hd. induction p as [|a p IH]; intros fuel data b n r Hb U F N Hf;
    (destruct fuel as [|fuel]; [lia|]); cbn [ReadUntil_loop];
    apply Z.eqb_neq in Hb; rewrite Hb;
    (destruct fuel as [|fuel]; [simpl in Hf; lia|]).
  - simpl in U.
    destruct (ReadByte_payload fuel r d rest Hd U) as (r1 & -> & U1 & R1).
    cbn [bind ReadUntil_loop]. rewrite Z.eqb_refl.
    exists r1. unfold len; simpl. replace (n + 0 + 1) with (n + 1) by lia.
    auto.
  - simpl in U. inversion F as [|? ? Fa Fp]; subst.
    destruct (ReadByte_payload fuel r a (p ++ d :: rest) Fa U)
      as (r1 & -> & U1 & R1).
    cbn [bind].
    destruct (IH (S fuel) (data ++ [a]) a (n + 1) r1) as (r' & H & U' & R').
    + intros E. apply N. now left.
    + exact U1.
    + exact Fp.
    + intros I. apply N. now right.
    + simpl in Hf. lia.
    + exists r'. rewrite H. split; [|split; [exact U'|congruence]].
      replace (n + 1 + len p + 1) with (n + len (a :: p) + 1)
        by (unfold len; simpl length; lia).
      rewrite <- app_assoc. reflexivity.
Qed.

(** X6.  On plain text (no escape marker) [ReadUntil] consumes the stream
    through its first delimiter and no further: the bytes before the
    delimiter and the delimiter are appended, their number is returned,
    and what follows the delimiter is left unread. *)
Theorem ReadUntil_plain_text
  (fuel : nat) (data p rest : list byte) (d : byte) (r : Reader) :
  d <> 0 -> d <> IAC ->
  unread r = p ++ d :: rest ->
  Forall (fun c => c <> IAC) p -> ~ In d p ->
  (S (length p) < fuel)%nat ->
  exists r', ReadUntil fuel data d r
             = Ret (len p + 1, None, data ++ p ++ [d], r')
             /\ unread r' = rest /\ rerr r' = rerr r.
Proof.
  intros H0 Hd U F N Hf. unfold ReadUntil.
  destruct (ReadUntil_loop_plain d rest Hd p fuel data 0 0 r)
    as (r' & H & U' & R'); auto.
  exists r'. rewrite H. auto.
Qed.

Lemma ReadUntil_plain_text_witness :
  exists r', ReadUntil 9 [7] SP (mkReader [104] [(105, [32; 120; 32])] EOF)
             = Ret (len [104; 105] + 1, None, [7] ++ [104; 105] ++ [SP], r')
             /\ unread r' = [120; 32] /\ rerr r' = EOF.
Proof.
  apply (ReadUntil_plain_text 9 [7] [104; 105] [120; 32] SP
           (mkReader [104] [(105, [32; 120; 32])] EOF)).
  - discriminate.
  - discriminate.
  - reflexivity.
  - repeat constructor; discriminate.
  - simpl. intros [H|[H|[]]]; discriminate.
  - simpl. lia.
Defined.

(* ================================================================= *)
(** * Further properties of the line start *)

(** X7.  [findNewLinePos] returns -1 or an index that leaves room for the
    two bytes of the mark, so the line start [i + 2] never passes the
    end of the buffer; on a buffer of fewer than two bytes it returns
    -1. *)
Theorem findNewLinePos_range (data : list byte) :
  (findNewLinePos data = -1
   \/ (0 <= findNewLinePos data /\ findNewLinePos data + 2 <= len data))
  /\ ((length data < 2)%nat -> findNewLinePos data = -1).
Proof.
  destruct (findNewLinePos_spec data) as [(E & _)|(i & E & Hc & _)].
  - split; auto.
  - apply crlf_at_bound in Hc. rewrite E. unfold len. split.
    + right. lia.
    + intros L. lia.
Qed.

Lemma has_crlf_false : forall data,
  has_crlf data = false -> forall i, ~ crlf_at data i.
Proof.
  induction data as [|a data IH]; intros H i [H1 H2].
  - destruct i; discriminate.
  - destruct data as [|b data].
    + destruct i as [|[|i]]; discriminate.
    + cbn [has_crlf] in H. apply orb_false_iff in H. destruct H as [Hab H].
      destruct i as [|i].
      * simpl in H1, H2. subst a b. discriminate.
      * apply (IH H i). split; assumption.
Qed.

Lemma nth_after_prefix (p l : list byte) k :
  nth (length p + k) (p ++ l) 0 = nth k l 0.
Proof.
  rewrite app_nth2 by lia. f_equal. lia.
Qed.

Lemma findNewLinePos_at_last_CRLF p q :
  has_crlf q = false ->
  findNewLinePos (p ++ CR :: LF :: q) = len p.
Proof.
  intros Hq. pose proof (has_crlf_false q Hq) as Nq.
  set (data := p ++ CR :: LF :: q).
  assert (Here : crlf_at data (length p)).
  { split.
    - replace (length p) with (length p + 0)%nat by lia.
      unfold data. now rewrite nth_after_prefix.
    - replace (S (length p)) with (length p + 1)%nat by lia.
      unfold data. now rewrite nth_after_prefix. }
  destruct (findNewLinePos_spec data) as [(_ & N)|(i & -> & Hc & N)].
  - exfalso. exact (N _ Here).
  - unfold len. f_equal.
    destruct (lt_eq_lt_dec i (length p)) as [[L|E]|L]; [|exact E|].
    + exfalso. exact (N _ L Here).
    + exfalso. destruct Hc as [H1 H2].
      destruct (Nat.eq_dec i (S (length p))) as [->|Ne].
      * replace (S (length p)) with (length p + 1)%nat in H1 by lia.
        unfold data in H1. rewrite nth_after_prefix in H1. discriminate.
      * apply (Nq (i - length p - 2)%nat). split.
        -- replace i with (length p + S (S (i - length p - 2)))%nat in H1
             by lia.
           unfold data in H1. rewrite nth_after_prefix in H1. exact H1.
        -- replace (S i) with (length p + S (S (S (i - length p - 2))))%nat
             in H2 by lia.
           unfold data in H2. rewrite nth_after_prefix in H2. exact H2.
Qed.

(** X8.  The chunk handed to the predicate is the text after the last
    CR LF of the accumulator: when [q] holds no CR LF, the fragment of
    [p ++ "\r\n" ++ q] is [q] (empty right after a line break), and the
    fragment of [q] alone is all of [q]. *)
Theorem fragment_is_text_after_last_CRLF (p q : list byte) :
  has_crlf q = false ->
  findNewLinePos (p ++ CR :: LF :: q) = len p
  /\ fragment (p ++ CR :: LF :: q) = q
  /\ findNewLinePos q = -1
  /\ fragment q = q.
Proof.
  intros Hq. pose proof (findNewLinePos_at_last_CRLF p q Hq) as E.
  split; [exact E|]. split; [|split].
  - unfold fragment, line_start. cbv zeta. rewrite E.
    assert (X : (len p =? -1) = false)
      by (apply Z.eqb_neq; unfold len; lia).
    rewrite X. unfold len.
    replace (Z.to_nat (Z.of_nat (length p) + 2)) with (length p + 2)%nat
      by lia.
    rewrite skipn_app, skipn_all2 by lia.
    replace (length p + 2 - length p)%nat with 2%nat by lia. reflexivity.
  - destruct (findNewLinePos_spec q) as [(E' & _)|(i & _ & Hc & _)];
      [exact E'|].
    exfalso. exact (has_crlf_false q Hq i Hc).
  - unfold fragment, line_start. cbv zeta.
    destruct (findNewLinePos_spec q) as [(E' & _)|(i & _ & Hc & _)].
    + rewrite E'. reflexivity.
    + exfalso. exact (has_crlf_false q Hq i Hc).
Qed.

Lemma fragment_is_text_after_last_CRLF_witness :
  findNewLinePos (bytes_of "motd" ++ CR :: LF :: bytes_of "host login: ")
    = len (bytes_of "motd")
  /\ fragment (bytes_of "motd" ++ CR :: LF :: bytes_of "host login: ")
     = bytes_of "host login: "
  /\ findNewLinePos (bytes_of "host login: ") = -1
  /\ fragment (bytes_of "host login: ") = bytes_of "host login: ".
Proof.
  apply (fragment_is_text_after_last_CRLF
           (bytes_of "motd") (bytes_of "host login: ")).
  reflexivity.
Defined.

(* ================================================================= *)
(** * Further properties of [ReadUntilPrompt] *)

Lemma ReadUntilPrompt_loop_idle process tc :
  Delimiter tc = 0 ->
  process [] tc = (false, tc) ->
  forall fuel, ReadUntilPrompt_loop fuel process cursor0 tc = NoFuel.
Proof.
  intros Hd Hp. induction fuel as [|fuel IH]; [reflexivity|].
  cbn [ReadUntilPrompt_loop]. unfold ReadUntilPrompt_round.
  rewrite Hd. cbn [output cursor0].
  destruct fuel as [|fuel]; [reflexivity|].
  rewrite ReadUntil_zero_delimiter. cbn [bind].
  rewrite set_reader_same.
  change (advance cursor0 0 []) with cursor0.
  change (slice (output cursor0) (linePos cursor0) (delimPos cursor0))
    with (Some (@nil byte)).
  cbv iota beta. rewrite Hp. exact IH.
Qed.

(** X9.  With a zero delimiter [ReadUntilPrompt] reads nothing: every
    round calls the predicate on the empty chunk.  If the predicate
    rejects the empty chunk and changes nothing, the loop never ends; if
    it accepts it, the empty output is returned at once and the
    connection is untouched. *)
Theorem ReadUntilPrompt_zero_delimiter (process : predicate)
  (tc : TelnetClient) :
  Delimiter tc = 0 ->
  (process [] tc = (false, tc) ->
   forall fuel, ReadUntilPrompt fuel process tc = NoFuel)
  /\ (forall tc', process [] tc = (true, tc') ->
      forall fuel,
        ReadUntilPrompt (S (S fuel)) process tc = Ret ([], None, tc')).
Proof.
  intros Hd. split.
  - intros Hp fuel. now apply ReadUntilPrompt_loop_idle.
  - intros tc' Hp fuel. unfold ReadUntilPrompt.
    cbn [ReadUntilPrompt_loop]. unfold ReadUntilPrompt_round.
    rewrite Hd. cbn [output cursor0].
    rewrite ReadUntil_zero_delimiter. cbn [bind].
    rewrite set_reader_same.
    change (advance cursor0 0 []) with cursor0.
    change (slice (output cursor0) (linePos cursor0) (delimPos cursor0))
      with (Some (@nil byte)).
    cbv iota beta. rewrite Hp. reflexivity.
Qed.

Lemma ReadUntilPrompt_zero_delimiter_witness :
  ReadUntilPrompt 1000 banner_found
    (mkClient [] [] (arriving (bytes_of "user@host:~$ ")) [] 0
              defaultLoginRe defaultPasswordRe defaultBannerRe)
  = NoFuel.
Proof.
  apply (proj1 (ReadUntilPrompt_zero_delimiter banner_found
                  (mkClient [] [] (arriving (bytes_of "user@host:~$ ")) [] 0
                            defaultLoginRe defaultPasswordRe defaultBannerRe)
                  eq_refl)).
  reflexivity.
Defined.

(** One round, spelled out. *)
Lemma ReadUntilPrompt_round_cases fuel process c tc rd :
  cursor_ok c ->
  ReadUntilPrompt_round fuel process c tc = Ret rd ->
  exists n err l r1,
    ReadUntil fuel (output c) (Delimiter tc) (reader tc)
      = Ret (n, err, output c ++ l, r1)
    /\ match rd with
       | Failed out e tc' =>
           err = Some e /\ out = output c ++ l /\ tc' = set_reader tc r1
       | Called c' chunk stop tc' =>
           err = None /\ cursor_ok c' /\ output c' = output c ++ l
           /\ chunk = fragment (output c')
           /\ process chunk (set_reader tc r1) = (stop, tc')
       end.
Proof.
  intros Hc. unfold ReadUntilPrompt_round.
  destruct (ReadUntil fuel (output c) (Delimiter tc) (reader tc))
    as [[[[n err] out] r1]| |] eqn:E; cbn [bind]; try discriminate.
  destruct (ReadUntil_extends _ _ _ _ _ _ _ _ E) as (l & -> & ->).
  destruct err as [e|].
  - intros H; inversion H; subst rd. exists (len l), (Some e), l, r1.
    split; [reflexivity|]. split; [reflexivity|]. split; reflexivity.
  - destruct (advance_ok c l Hc) as (Hc' & _ & _ & O).
    set (c1 := advance c (len l) (output c ++ l)) in *.
    assert (S : slice (output c1) (linePos c1) (delimPos c1)
                = Some (fragment (output c1))).
    { destruct Hc' as (A0 & A1 & A2 & A3). rewrite A2.
      rewrite slice_to_end by lia. unfold fragment. now rewrite <- A3. }
    rewrite S.
    destruct (process (fragment (output c1)) (set_reader tc r1))
      as [stop tc2] eqn:P.
    intros H; inversion H; subst rd.
    exists (len l), None, l, r1. split; [reflexivity|].
    split; [reflexivity|]. split; [exact Hc'|]. split; [exact O|].
    split; [reflexivity|exact P].
Qed.

Section KeepRun.

Variable process : predicate.
Hypothesis process_keeps : keeps_connection process.

Lemma keep_loop : forall fuel r0 c tc out err tc',
  Delimiter tc <> 0 ->
  cursor_ok c ->
  reads r0 (output c) (reader tc) ->
  ReadUntilPrompt_loop fuel process c tc = Ret (out, err, tc') ->
  Delimiter tc' = Delimiter tc
  /\ match err with
     | None =>
         reads r0 out (reader tc') /\ exists p, out = p ++ [Delimiter tc]
     | Some e =>
         exists r1, reads r0 out r1 /\ fails r1 e (reader tc')
     end.
Proof.
  induction fuel as [|fuel IH]; intros r0 c tc out err tc' Hd Hc Hr;
    cbn [ReadUntilPrompt_loop]; [discriminate|].
  destruct (ReadUntilPrompt_round fuel process c tc) as [rd| |] eqn:E;
    cbn [bind]; try discriminate.
  destruct (ReadUntilPrompt_round_cases _ _ _ _ _ Hc E)
    as (n & err1 & l & r1 & RU & C).
  destruct (ReadUntil_reads _ _ _ _ _ _ _ _ RU)
    as (l' & El & _ & [(Z0 & _)|(_ & Hl)]); [contradiction|].
  apply app_inv_head in El. subst l'.
  destruct rd as [out1 e1 tc1|c1 chunk stop tc1].
  - destruct C as (-> & -> & ->). intros H; inversion H; subst out err tc'.
    destruct Hl as (_ & r2 & R2 & F2). split; [reflexivity|].
    exists r2. split; [eapply reads_app; eassumption|exact F2].
  - destruct C as (-> & Hc1 & O & _ & P).
    destruct Hl as (p0 & -> & _ & R1).
    pose proof (process_keeps chunk (set_reader tc r1)) as K.
    rewrite P in K. cbn [snd] in K. destruct K as [K1 K2].
    change (reader (set_reader tc r1)) with r1 in K1.
    change (Delimiter (set_reader tc r1)) with (Delimiter tc) in K2.
    assert (R : reads r0 (output c1) (reader tc1)).
    { rewrite O, K1. eapply reads_app; eassumption. }
    destruct stop.
    + intros H; inversion H; subst out err tc'. split; [exact K2|].
      split; [exact R|]. exists (output c ++ p0).
      rewrite O, <- app_assoc. reflexivity.
    + intros H. apply (IH r0) in H; try assumption; [|congruence].
      rewrite K2 in H. exact H.
Qed.

Lemma keep_loop_returns : forall fuel c tc,
  Delimiter tc <> 0 ->
  cursor_ok c ->
  (S (S (pending (reader tc))) < fuel)%nat ->
  exists out err tc', ReadUntilPrompt_loop fuel process c tc
                      = Ret (out, err, tc').
Proof.
  induction fuel as [|fuel IH]; intros c tc Hd Hc Hf; [lia|].
  cbn [ReadUntilPrompt_loop].
  destruct (ReadUntilPrompt_round_spec fuel process c tc Hc) as [NP _].
  destruct (ReadUntilPrompt_round fuel process c tc) as [rd| |] eqn:E;
    [|congruence|].
  - cbn [bind].
    destruct (ReadUntilPrompt_round_cases _ _ _ _ _ Hc E)
      as (n & err1 & l & r1 & RU & C).
    destruct rd as [out1 e1 tc1|c1 chunk stop tc1]; [eauto|].
    destruct stop; [eauto|].
    destruct C as (-> & Hc1 & O & _ & P).
    destruct (ReadUntil_reads _ _ _ _ _ _ _ _ RU)
      as (l' & El & _ & [(Z0 & _)|(_ & p0 & -> & _ & R1)]);
      [contradiction|].
    pose proof (process_keeps chunk (set_reader tc r1)) as K.
    rewrite P in K. cbn [snd] in K. destruct K as [K1 K2].
    change (reader (set_reader tc r1)) with r1 in K1.
    change (Delimiter (set_reader tc r1)) with (Delimiter tc) in K2.
    apply IH; [congruence|exact Hc1|].
    rewrite K1. apply reads_pending in R1. rewrite length_app in R1.
    simpl in R1. lia.
  - exfalso. unfold ReadUntilPrompt_round in E.
    destruct (ReadUntil_loop_returns fuel (output c) (Delimiter tc) 0 0
                (reader tc)) as (n' & err & data' & r' & H & _); [lia|].
    unfold ReadUntil in E. rewrite H in E. cbn [bind] in E.
    destruct err; [discriminate|].
    destruct (slice _ _ _); [|discriminate].
    destruct (process _ _); discriminate.
Qed.

End KeepRun.

Lemma banner_found_keeps : keeps_connection banner_found.
Proof. intros chunk tc. split; reflexivity. Qed.

Lemma welcome_sign_keeps : keeps_connection welcome_sign.
Proof.
  intros chunk tc. unfold welcome_sign, findInputPrompt, Write.
  destruct (len (Find (LoginRe tc) chunk) =? 0); [|split; reflexivity].
  cbn [fst snd].
  destruct (len (Find (PasswordRe tc) chunk) =? 0); split; reflexivity.
Qed.

(** X10.  With a delimiter set and a predicate that leaves the read side
    of the connection and the delimiter alone, [ReadUntilPrompt] returns
    on every connection: it stops, or the connection ends and the read
    fails. *)
Theorem ReadUntilPrompt_returns (fuel : nat) (process : predicate)
  (tc : TelnetClient) :
  keeps_connection process ->
  Delimiter tc <> 0 ->
  (S (S (pending (reader tc))) < fuel)%nat ->
  exists out err tc', ReadUntilPrompt fuel process tc = Ret (out, err, tc').
Proof.
  intros K Hd Hf. unfold ReadUntilPrompt.
  apply keep_loop_returns; auto. apply cursor0_ok.
Qed.

Lemma ReadUntilPrompt_returns_witness :
  exists out err tc',
    ReadUntilPrompt 20 welcome_sign scan_start = Ret (out, err, tc').
Proof.
  apply (ReadUntilPrompt_returns 20 welcome_sign scan_start).
  - exact welcome_sign_keeps.
  - discriminate.
  - vm_compute. lia.
Defined.

(** X11.  With such a predicate, the output of [ReadUntilPrompt] is what
    the decoder delivered, byte for byte: on success all of it up to the
    delimiter that ended the last round; on failure all of it up to the
    failing read. *)
Theorem ReadUntilPrompt_output_is_what_was_read (fuel : nat)
  (process : predicate) (tc : TelnetClient)
  (out : list byte) (err : option error) (tc' : TelnetClient) :
  keeps_connection process ->
  Delimiter tc <> 0 ->
  ReadUntilPrompt fuel process tc = Ret (out, err, tc') ->
  Delimiter tc' = Delimiter tc
  /\ match err with
     | None =>
         reads (reader tc) out (reader tc')
         /\ exists p, out = p ++ [Delimiter tc]
     | Some e =>
         exists r1, reads (reader tc) out r1 /\ fails r1 e (reader tc')
     end.
Proof.
  intros K Hd H. unfold ReadUntilPrompt in H.
  apply (keep_loop process K fuel (reader tc) cursor0 tc); auto.
  - apply cursor0_ok.
  - constructor.
Qed.

Lemma ReadUntilPrompt_output_is_what_was_read_witness :
  Delimiter scan_client = Delimiter scan_start
  /\ reads (reader scan_start) (bytes_of "ab ") (reader scan_client)
  /\ exists p, bytes_of "ab " = p ++ [Delimiter scan_start].
Proof.
  apply (ReadUntilPrompt_output_is_what_was_read 20
           (fun _ tc => (true, tc)) scan_start
           (bytes_of "ab ") None scan_client).
  - intros chunk tc. split; reflexivity.
  - discriminate.
  - vm_compute. reflexivity.
Defined.

(* ================================================================= *)
(** * Further properties of the login handshake *)

Lemma no_match_test re data :
  (len (Find re data) =? 0) = negb (has_match re data).
Proof.
  unfold has_match, len.
  destruct (Z.of_nat (length (Find re data)) =? 0) eqn:E.
  - apply Z.eqb_eq in E. rewrite E. reflexivity.
  - apply Z.eqb_neq in E. symmetry. apply negb_false_iff.
    apply Z.ltb_lt. lia.
Qed.

Lemma same_settings_refl tc : same_settings tc tc.
Proof. repeat split. Qed.

Lemma same_settings_trans a b c :
  same_settings a b -> same_settings b c -> same_settings a c.
Proof.
  intros (A1 & A2 & A3 & A4 & A5 & A6) (B1 & B2 & B3 & B4 & B5 & B6).
  repeat split; congruence.
Qed.

Lemma welcome_sign_cases data tc :
  reader (snd (welcome_sign data tc)) = reader tc
  /\ same_settings (snd (welcome_sign data tc)) tc
  /\ (if has_match (LoginRe tc) data
      then fst (welcome_sign data tc) = false
           /\ sent (snd (welcome_sign data tc))
              = sent tc ++ Login tc ++ CRLF
      else if has_match (PasswordRe tc) data
      then fst (welcome_sign data tc) = false
           /\ sent (snd (welcome_sign data tc))
              = sent tc ++ Password tc ++ CRLF
      else fst (welcome_sign data tc) = has_match (BannerRe tc) data
           /\ snd (welcome_sign data tc) = tc).
Proof.
  unfold welcome_sign, findInputPrompt, Write.
  rewrite (no_match_test (LoginRe tc) data).
  destruct (has_match (LoginRe tc) data); cbn [negb fst snd].
  - repeat split.
  - rewrite (no_match_test (PasswordRe tc) data).
    destruct (has_match (PasswordRe tc) data); cbn [negb fst snd];
      repeat split.
Qed.

(** X12.  The login predicate, fragment by fragment: a login prompt is
    answered with the login, a password prompt (when no login prompt
    matches) with the password, each followed by "\r\n", and the scan
    goes on; otherwise nothing is written and the scan stops exactly
    when the banner pattern matches.  The read side and the settings of
    the client are never touched. *)
Theorem welcome_sign_decision (data : list byte) (tc : TelnetClient) :
  reader (snd (welcome_sign data tc)) = reader tc
  /\ same_settings (snd (welcome_sign data tc)) tc
  /\ (if has_match (LoginRe tc) data
      then fst (welcome_sign data tc) = false
           /\ sent (snd (welcome_sign data tc))
              = sent tc ++ Login tc ++ CRLF
      else if has_match (PasswordRe tc) data
      then fst (welcome_sign data tc) = false
           /\ sent (snd (welcome_sign data tc))
              = sent tc ++ Password tc ++ CRLF
      else fst (welcome_sign data tc) = has_match (BannerRe tc) data
           /\ snd (welcome_sign data tc) = tc).
Proof. apply welcome_sign_cases. Qed.

Lemma welcome_loop : forall fuel r0 tc0 c tc out err tc',
  cursor_ok c ->
  same_settings tc tc0 ->
  reads r0 (output c) (reader tc) ->
  (exists rs, sent tc = sent tc0 ++ concat rs
              /\ Forall (is_response tc0) rs) ->
  ReadUntilPrompt_loop fuel welcome_sign c tc = Ret (out, err, tc') ->
  same_settings tc' tc0
  /\ (exists rs, sent tc' = sent tc0 ++ concat rs
                 /\ Forall (is_response tc0) rs)
  /\ (err = None ->
      reads r0 out (reader tc')
      /\ has_match (BannerRe tc0) (fragment out) = true
      /\ has_match (LoginRe tc0) (fragment out) = false
      /\ has_match (PasswordRe tc0) (fragment out) = false).
Proof.
  induction fuel as [|fuel IH]; intros r0 tc0 c tc out err tc' Hc Hs Hr Hw;
    cbn [ReadUntilPrompt_loop]; [discriminate|].
  destruct (ReadUntilPrompt_round fuel welcome_sign c tc) as [rd| |] eqn:E;
    cbn [bind]; try discriminate.
  destruct (ReadUntilPrompt_round_cases _ _ _ _ _ Hc E)
    as (n & err1 & l & r1 & RU & C).
  destruct rd as [out1 e1 tc1|c1 chunk stop tc1].
  - destruct C as (-> & -> & ->). intros H; inversion H; subst out err tc'.
    split; [exact Hs|]. split; [exact Hw|discriminate].
  - destruct C as (-> & Hc1 & O & Ec & P).
    assert (R1 : reads r0 (output c1) r1).
    { rewrite O.
      destruct (ReadUntil_reads _ _ _ _ _ _ _ _ RU)
        as (l' & El & _ & [(_ & -> & _ & ->)|(_ & p0 & -> & _ & R)]);
        apply app_inv_head in El; subst l.
      - now rewrite app_nil_r.
      - eapply reads_app; eassumption. }
    pose proof (welcome_sign_cases chunk (set_reader tc r1)) as T.
    rewrite P in T. cbn [fst snd] in T. destruct T as (T1 & T2 & T3).
    change (reader (set_reader tc r1)) with r1 in T1.
    change (LoginRe (set_reader tc r1)) with (LoginRe tc) in T3.
    change (PasswordRe (set_reader tc r1)) with (PasswordRe tc) in T3.
    change (BannerRe (set_reader tc r1)) with (BannerRe tc) in T3.
    change (Login (set_reader tc r1)) with (Login tc) in T3.
    change (Password (set_reader tc r1)) with (Password tc) in T3.
    change (sent (set_reader tc r1)) with (sent tc) in T3.
    assert (S1 : same_settings tc1 tc0).
    { eapply same_settings_trans; [exact T2|]. exact Hs. }
    destruct Hs as (L1 & L2 & L3 & L4 & L5 & L6).
    destruct Hw as (rs & Ew & Fw).
    assert (W1 : exists rs', sent tc1 = sent tc0 ++ concat rs'
                             /\ Forall (is_response tc0) rs').
    { destruct (has_match (LoginRe tc) chunk).
      - destruct T3 as (_ & T3). exists (rs ++ [Login tc0 ++ CRLF]). split.
        + rewrite T3, Ew, concat_app. simpl. rewrite app_nil_r, L1.
          now rewrite <- app_assoc.
        + apply Forall_app. split; [exact Fw|].
          constructor; [now left|constructor].
      - destruct (has_match (PasswordRe tc) chunk).
        + destruct T3 as (_ & T3). exists (rs ++ [Password tc0 ++ CRLF]).
          split.
          * rewrite T3, Ew, concat_app. simpl. rewrite app_nil_r, L2.
            now rewrite <- app_assoc.
          * apply Forall_app. split; [exact Fw|].
            constructor; [now right|constructor].
        + destruct T3 as (_ & ->). exists rs. auto. }
    destruct stop.
    + intros H; inversion H; subst out err tc'.
      split; [exact S1|]. split; [exact W1|]. intros _.
      split; [rewrite T1; exact R1|]. rewrite <- Ec.
      rewrite <- L4, <- L5, <- L6.
      destruct (has_match (LoginRe tc) chunk);
        [destruct T3; discriminate|].
      destruct (has_match (PasswordRe tc) chunk);
        [destruct T3; discriminate|].
      destruct T3 as (T3 & _). auto.
    + intros H. apply (IH r0 tc0) in H; auto. now rewrite T1.
Qed.

(** X13.  Whatever the server sends, the handshake writes nothing but
    answers to prompts: what it has sent when it returns, with or
    without an error, is a sequence of login and password responses,
    each followed by "\r\n"; credentials, delimiter and patterns are
    unchanged. *)
Theorem waitWelcomeSigns_writes_responses_only
  (fuel : nat) (tc : TelnetClient) (err : option error)
  (tc' : TelnetClient) :
  waitWelcomeSigns fuel tc = Ret (err, tc') ->
  same_settings tc' tc
  /\ exists rs, sent tc' = sent tc ++ concat rs
                /\ Forall (is_response tc) rs.
Proof.
  unfold waitWelcomeSigns, ReadUntilPrompt.
  destruct (ReadUntilPrompt_loop fuel welcome_sign cursor0 tc)
    as [[[out err1] tc1]| |] eqn:E; cbn [bind]; try discriminate.
  intros H; inversion H; subst err1 tc1.
  destruct (welcome_loop fuel (reader tc) tc cursor0 tc out err tc')
    as (S & W & _); auto.
  - apply cursor0_ok.
  - apply same_settings_refl.
  - constructor.
  - exists []. simpl. rewrite app_nil_r. auto.
Qed.

Lemma waitWelcomeSigns_writes_responses_only_witness :
  waitWelcomeSigns 60 handshake_client = Ret (None, handshake_done)
  /\ same_settings handshake_done handshake_client
  /\ exists rs, sent handshake_done = sent handshake_client ++ concat rs
                /\ Forall (is_response handshake_client) rs.
Proof.
  split; [vm_compute; reflexivity|].
  apply (waitWelcomeSigns_writes_responses_only 60 handshake_client
           None handshake_done).
  vm_compute. reflexivity.
Defined.

(** X14.  The handshake completes without an error only at a fragment
    that matches the banner pattern and neither prompt pattern; what it
    has read up to there is what the decoder delivered. *)
Theorem waitWelcomeSigns_completes_at_banner
  (fuel : nat) (tc : TelnetClient) (tc' : TelnetClient) :
  waitWelcomeSigns fuel tc = Ret (None, tc') ->
  exists out,
    reads (reader tc) out (reader tc')
    /\ has_match (BannerRe tc) (fragment out) = true
    /\ has_match (LoginRe tc) (fragment out) = false
    /\ has_match (PasswordRe tc) (fragment out) = false.
Proof.
  unfold waitWelcomeSigns, ReadUntilPrompt.
  destruct (ReadUntilPrompt_loop fuel welcome_sign cursor0 tc)
    as [[[out err1] tc1]| |] eqn:E; cbn [bind]; try discriminate.
  intros H; inversion H; subst err1 tc1.
  destruct (welcome_loop fuel (reader tc) tc cursor0 tc out None tc')
    as (_ & _ & B); auto.
  - apply cursor0_ok.
  - apply same_settings_refl.
  - constructor.
  - exists []. simpl. rewrite app_nil_r. auto.
  - exists out. auto.
Qed.

Lemma waitWelcomeSigns_completes_at_banner_witness :
  exists out,
    reads (reader handshake_client) out (reader handshake_done)
    /\ has_match (BannerRe handshake_client) (fragment out) = true
    /\ has_match (LoginRe handshake_client) (fragment out) = false
    /\ has_match (PasswordRe handshake_client) (fragment out) = false.
Proof.
  apply (waitWelcomeSigns_completes_at_banner 60 handshake_client
           handshake_done).
  vm_compute. reflexivity.
Defined.

(* ================================================================= *)
(** * Further properties of [ReadUntilBanner] and [Execute] *)

Lemma banner_loop_client : forall fuel c tc out err tc',
  ReadUntilPrompt_loop fuel banner_found c tc = Ret (out, err, tc') ->
  exists r', tc' = set_reader tc r'.
Proof.
  induction fuel as [|fuel IH]; intros c tc out err tc';
    cbn [ReadUntilPrompt_loop]; [discriminate|].
  unfold ReadUntilPrompt_round.
  destruct (ReadUntil fuel (output c) (Delimiter tc) (reader tc))
    as [[[[n e] out1] r1]| |]; cbn [bind]; try discriminate.
  destruct e as [e|].
  - intros H; inversion H; subst. now exists r1.
  - destruct (slice _ _ _) as [chunk|]; [|discriminate].
    rewrite banner_found_pure. cbn [bind].
    destruct (has_match _ _).
    + intros H; inversion H; subst. now exists r1.
    + intros H. apply IH in H. destruct H as (r' & ->). now exists r'.
Qed.

(** X15.  Whatever [Execute] returns, error or not, it has written the
    request once and nothing else, and credentials, delimiter and
    patterns are as before.  Without arguments the request is the name,
    a space and "\r\n". *)
Theorem Execute_sends_request_once
  (fuel : nat) (name : list byte) (args : list (list byte))
  (tc : TelnetClient) (out : list byte) (err : option error)
  (tc' : TelnetClient) :
  Execute fuel name args tc = Ret (out, err, tc') ->
  sent tc' = sent tc ++ name ++ [SP] ++ Join args [SP] ++ [CR; LF]
  /\ same_settings tc' tc
  /\ (args = [] -> sent tc' = sent tc ++ name ++ [SP; CR; LF]).
Proof.
  rewrite Execute_unfold. unfold ReadUntilBanner, ReadUntilPrompt.
  destruct (ReadUntilPrompt_loop fuel banner_found cursor0
              (submitted name args tc))
    as [[[raw err1] tc1]| |] eqn:E; cbn [bind]; try discriminate.
  intros H; inversion H; subst out err tc1.
  destruct (banner_loop_client _ _ _ _ _ _ E) as (r' & ->).
  split; [reflexivity|]. split; [repeat split|].
  intros ->. reflexivity.
Qed.

Lemma Execute_sends_request_once_witness :
  sent ls_after
    = sent ls_client ++ bytes_of "ls" ++ [SP]
        ++ Join [bytes_of "-l"] [SP] ++ [CR; LF]
  /\ same_settings ls_after ls_client
  /\ ([bytes_of "-l"] = [] ->
      sent ls_after = sent ls_client ++ bytes_of "ls" ++ [SP; CR; LF]).
Proof.
  apply (Execute_sends_request_once 99 (bytes_of "ls") [bytes_of "-l"]
           ls_client ls_stdout None ls_after).
  vm_compute. reflexivity.
Defined.

Lemma TrimLeft_head : forall s cutset c t,
  TrimLeft s cutset = c :: t -> existsb (Z.eqb c) cutset = false.
Proof.
  induction s as [|a s IH]; intros cutset c t; simpl; [discriminate|].
  destruct (existsb (Z.eqb a) cutset) eqn:E.
  - apply IH.
  - intros H; inversion H; subst. exact E.
Qed.

Lemma TrimLeft_suffix : forall s cutset,
  exists pre, s = pre ++ TrimLeft s cutset.
Proof.
  induction s as [|a s IH]; intros cutset; simpl.
  - now exists [].
  - destruct (existsb (Z.eqb a) cutset).
    + destruct (IH cutset) as (pre & E). exists (a :: pre).
      simpl. now rewrite <- E.
    + now exists [].
Qed.

Lemma Trim_ends s cutset :
  (forall c t, Trim s cutset = c :: t -> existsb (Z.eqb c) cutset = false)
  /\ (forall c t, Trim s cutset = t ++ [c] ->
      existsb (Z.eqb c) cutset = false).
Proof.
  unfold Trim, TrimRight. set (u := TrimLeft s cutset).
  destruct (TrimLeft_suffix (rev u) cutset) as (pre & E).
  assert (Eu : u = rev (TrimLeft (rev u) cutset) ++ rev pre).
  { rewrite <- rev_app_distr, <- E. now rewrite rev_involutive. }
  split.
  - intros c t H. rewrite H in Eu. simpl in Eu.
    apply (TrimLeft_head s cutset c (t ++ rev pre)). exact Eu.
  - intros c t H.
    assert (X : TrimLeft (rev u) cutset = c :: rev t).
    { rewrite <- (rev_involutive (TrimLeft (rev u) cutset)), H.
      rewrite rev_app_distr. reflexivity. }
    exact (TrimLeft_head _ _ _ _ X).
Qed.

(** X16.  What [ReadUntilBanner] and [Execute] return neither starts nor
    ends with a space, with or without an error. *)
Theorem command_output_has_no_outer_space :
  (forall fuel tc out err tc',
      ReadUntilBanner fuel tc = Ret (out, err, tc') ->
      (forall t, out <> SP :: t) /\ (forall t, out <> t ++ [SP]))
  /\ (forall fuel name args tc out err tc',
        Execute fuel name args tc = Ret (out, err, tc') ->
        (forall t, out <> SP :: t) /\ (forall t, out <> t ++ [SP])).
Proof.
  assert (B : forall fuel tc out err tc',
             ReadUntilBanner fuel tc = Ret (out, err, tc') ->
             (forall t, out <> SP :: t) /\ (forall t, out <> t ++ [SP])).
  { intros fuel tc out err tc'. unfold ReadUntilBanner.
    destruct (ReadUntilPrompt fuel banner_found tc)
      as [[[raw err1] tc1]| |]; cbn [bind]; try discriminate.
    intros H; inversion H; subst out err tc1.
    destruct (Trim_ends (ReplaceAll (BannerRe tc') raw []) [SP]) as [T1 T2].
    split; intros t E.
    - apply T1 in E. discriminate.
    - apply T2 in E. discriminate. }
  split; [exact B|].
  intros fuel name args tc out err tc' H. rewrite Execute_unfold in H.
  exact (B _ _ _ _ _ H).
Qed.

Lemma command_output_has_no_outer_space_witness :
  (exists tc', ReadUntilBanner 60 spaced_client
               = Ret (bytes_of "a b", None, tc'))
  /\ (forall t, bytes_of "a b" <> SP :: t)
  /\ (forall t, bytes_of "a b" <> t ++ [SP]).
Proof.
  split; [eexists; vm_compute; reflexivity|].
  apply (proj1 command_output_has_no_outer_space 60%nat spaced_client
           (bytes_of "a b") None
           (set_reader spaced_client (mkReader [] [] EOF))).
  vm_compute. reflexivity.
Defined.

(* ================================================================= *)
(** * [setDefaultParams] *)

(** X17.  After [setDefaultParams] no setting is left unset: the port is
    not empty, the read timeout and the delimiter are not zero, the three
    patterns are there, and so is the log writer when logging is on.  A
    field the caller had set keeps its value, and the fields that have
    no default are untouched. *)
Theorem setDefaultParams_fills_unset_fields
  {W : Type} (stdout : W) (d : Descriptor W) :
  let d' := setDefaultParams stdout d in
  (dPort d' <> [] /\ dReadTimeout d' <> 0 /\ dDelimiter d' <> 0
   /\ dLoginRe d' <> None /\ dPasswordRe d' <> None /\ dBannerRe d' <> None
   /\ (dVerbose d' = true -> dLogWriter d' <> None))
  /\ ((dPort d <> [] -> dPort d' = dPort d)
      /\ (dReadTimeout d <> 0 -> dReadTimeout d' = dReadTimeout d)
      /\ (dDelimiter d <> 0 -> dDelimiter d' = dDelimiter d)
      /\ (dLoginRe d <> None -> dLoginRe d' = dLoginRe d)
      /\ (dPasswordRe d <> None -> dPasswordRe d' = dPasswordRe d)
      /\ (dBannerRe d <> None -> dBannerRe d' = dBannerRe d)
      /\ (dLogWriter d <> None -> dLogWriter d' = dLogWriter d)
      /\ (dVerbose d = false -> dLogWriter d' = dLogWriter d))
  /\ (dLogin d' = dLogin d /\ dPassword d' = dPassword d
      /\ dAddress d' = dAddress d /\ dConnTimeout d' = dConnTimeout d
      /\ dVerbose d' = dVerbose d).
Proof.
  destruct d as [lg pw ad po ct rt vb lw dl lr pr br]; cbv zeta;
    unfold setDefaultParams; cbn.
  split; [|split].
  - split; [destruct po; discriminate|].
    split; [destruct (rt =? 0) eqn:E;
            [discriminate|now apply Z.eqb_neq in E]|].
    split; [destruct (dl =? 0) eqn:E;
            [discriminate|now apply Z.eqb_neq in E]|].
    split; [destruct lr; discriminate|].
    split; [destruct pr; discriminate|].
    split; [destruct br; discriminate|].
    intros ->. destruct lw; discriminate.
  - split; [destruct po; [congruence|reflexivity]|].
    split; [intros H; apply Z.eqb_neq in H; now rewrite H|].
    split; [intros H; apply Z.eqb_neq in H; now rewrite H|].
    split; [destruct lr; [reflexivity|congruence]|].
    split; [destruct pr; [reflexivity|congruence]|].
    split; [destruct br; [reflexivity|congruence]|].
    split; [destruct lw; [destruct vb; reflexivity|congruence]|].
    intros ->. reflexivity.
  - repeat split.
Qed.

(** X18.  [setDefaultParams] applied twice is [setDefaultParams] applied
    once: no default it fills in is itself an unset value. *)
Theorem setDefaultParams_idempotent {W : Type} (stdout : W)
  (d : Descriptor W) :
  setDefaultParams stdout (setDefaultParams stdout d)
  = setDefaultParams stdout d.
Proof.
  destruct d as [lg pw ad po ct rt vb lw dl lr pr br].
  unfold setDefaultParams; cbn [dLogin dPassword dAddress dPort dConnTimeout
    dReadTimeout dVerbose dLogWriter dDelimiter dLoginRe dPasswordRe
    dBannerRe].
  f_equal.
  - destruct po; reflexivity.
  - destruct (rt =? 0) eqn:E; [reflexivity|now rewrite E].
  - destruct vb; [destruct lw|]; reflexivity.
  - destruct (dl =? 0) eqn:E; [reflexivity|now rewrite E].
  - destruct lr; reflexivity.
  - destruct pr; reflexivity.
  - destruct br; reflexivity.
Qed.

(* ================================================================= *)
(** * [Dial] *)

Lemma session_after_defaults {W : Type} (stdout : W) (d : Descriptor W) r :
  exists tc, session (setDefaultParams stdout d) r = Some tc
             /\ Delimiter tc <> 0 /\ reader tc = r /\ sent tc = [].
Proof.
  destruct d as [lg pw ad po ct rt vb lw dl lr pr br].
  unfold session, setDefaultParams; cbn.
  destruct lr, pr, br; cbn; eexists; (split; [reflexivity|]);
    cbn; (split; [|split; reflexivity]);
    (destruct (dl =? 0) eqn:E; [discriminate|now apply Z.eqb_neq in E]).
Qed.

(** X19.  [Dial] returns, whatever the descriptor holds and whatever the
    connection does: a connect or deadline error is returned as it is,
    and since the defaults are filled in first, the handshake runs with
    all three patterns and a delimiter other than zero, so it neither
    panics nor reads forever. *)
Theorem Dial_returns {W : Type} (fuel : nat) (stdout : W)
  (d : Descriptor W) (connect : error + Reader) (deadline : option error) :
  match connect with
  | inl _ => True
  | inr r => (S (S (pending r)) < fuel)%nat
  end ->
  exists err tc, Dial fuel stdout d connect deadline = Ret (err, tc)
    /\ match connect, deadline with
       | inl e, _ => err = Some e /\ tc = None
       | inr _, Some e => err = Some e
       | inr _, None => exists tc', tc = Some tc'
       end.
Proof.
  intros Hf. unfold Dial. destruct connect as [e|r]; [eauto|].
  destruct deadline as [e|]; [eauto|].
  destruct (session_after_defaults stdout d r) as (tc & -> & Hd & Hr & _).
  unfold waitWelcomeSigns.
  destruct (keep_loop_returns welcome_sign welcome_sign_keeps fuel cursor0 tc)
    as (out & err & tc' & H); auto.
  - apply cursor0_ok.
  - now rewrite Hr.
  - unfold ReadUntilPrompt. rewrite H. cbn [bind]. eauto.
Qed.

Lemma Dial_returns_witness :
  exists err tc,
    Dial 60 tt bare_descriptor (inr (arriving handshake_received)) None
      = Ret (err, tc)
    /\ exists tc', tc = Some tc'.
Proof.
  apply (Dial_returns 60 tt bare_descriptor
           (inr (arriving handshake_received)) None).
  vm_compute. lia.
Defined.
